(** * School_Ai_feature: answer segmentation, heuristic grading and score extraction

    A shallow embedding of three TypeScript services of the API:

    - [extractQaPairs]            (services/extractQaPairs.ts)
    - [gradeSubmissionHeuristic]  (services/gradingHeuristic.ts)
    - [extractScoreFromText]      (services/extractScore.ts)

    and of two of their callers, where the libraries they await and the
    environment they read are arguments:

    - [extractTextFromUpload]     (services/extractText.ts)
    - [gradeSubmission]           (services/grading.ts)

    Conventions of the embedding.

    - A JavaScript string is the list of its code units; the development covers
      the code units below 256, so a string is a [list ascii].
    - A regular expression literal of the source is a value of type
      [Regex.regex]; [Regex.exec] is a backtracking matcher that follows the
      ECMAScript rules for the constructs the source uses (ordered
      alternation, greedy quantifiers, [^] without the m flag, [\b],
      capturing groups), and [Regex.matchAll] is the scan of a global regex.
    - A [Map] or [Set] is an association list or list in insertion order.
    - [Array.prototype.sort] is a stable insertion sort; a comparator that
      answers NaN counts as 0, as in ECMAScript.
    - Numbers.  The integers read from digit strings, the token counts and
      the scores of candidates are exact in a double and are in [Z] or [nat];
      the confidence literals of the extractor are rationals.  The grader
      divides by square roots, so its numbers are the real numbers [R]: the
      rounding of [Math.sqrt], of the product and of the quotient is not
      modelled, [Math.round], [Math.min] and [Math.max] are exact. *)

From Stdlib Require Import Ascii String.
From Stdlib Require Import Bool List ZArith Lia.
From Stdlib Require Import Permutation Sorted DecimalString.
From Stdlib Require Import QArith Reals Lra.
Import ListNotations.
Close Scope Q_scope.

Set Implicit Arguments.

(** ** Strings *)

Definition jsstring := list ascii.

Definition str (s : string) : jsstring := list_ascii_of_string s.

Module Chr.

Definition code (c : ascii) : nat := nat_of_ascii c.

Definition inRange (lo hi : nat) (c : ascii) : bool :=
  (lo <=? code c)%nat && (code c <=? hi)%nat.

Definition isCode (n : nat) (c : ascii) : bool := (code c =? n)%nat.

Definition LF : ascii := ascii_of_nat 10.
Definition CR : ascii := ascii_of_nat 13.
Definition TAB : ascii := ascii_of_nat 9.
Definition SP : ascii := ascii_of_nat 32.

(** [\d] *)
Definition isDigit : ascii -> bool := inRange 48 57.

(** [\s], and the characters [trim] removes: TAB LF VT FF CR, space, NBSP. *)
Definition isSpace (c : ascii) : bool := inRange 9 13 c || isCode 32 c || isCode 160 c.

(** [\w]: letters, digits and underscore. *)
Definition isWord (c : ascii) : bool :=
  isDigit c || inRange 97 122 c || inRange 65 90 c || isCode 95 c.

(** [[a-z0-9]]: with [\s], the characters [tokenize] keeps. *)
Definition isLowerAlnum (c : ascii) : bool := inRange 97 122 c || isDigit c.

(** [String.prototype.toLowerCase] on one code unit: A-Z, and the Latin-1
    capitals U+00C0..U+00DE but U+00D7. *)
Definition toLower (c : ascii) : ascii :=
  if inRange 65 90 c || (inRange 192 222 c && negb (isCode 215 c))
  then ascii_of_nat (code c + 32) else c.

(** Canonical form of a code unit under the i flag, for the ASCII letters the
    patterns of the source contain. *)
Definition fold (c : ascii) : ascii :=
  if inRange 97 122 c then ascii_of_nat (code c - 32) else c.

Definition eqb (a b : ascii) : bool := Ascii.eqb a b.

(** A pattern character under the i flag. *)
Definition ci (x : ascii) (c : ascii) : bool := eqb (fold x) (fold c).

(** One of the characters of [s], for a class such as [[:.)-]]. *)
Definition oneOf (s : string) (c : ascii) : bool := existsb (eqb c) (str s).

End Chr.

Module Js.

Fixpoint eqb (a b : jsstring) : bool :=
  match a, b with
  | [], [] => true
  | x :: a', y :: b' => Ascii.eqb x y && eqb a' b'
  | _, _ => false
  end.

Fixpoint dropWhile (p : ascii -> bool) (s : jsstring) : jsstring :=
  match s with
  | c :: r => if p c then dropWhile p r else s
  | [] => []
  end.

Definition trimStart (s : jsstring) : jsstring := dropWhile Chr.isSpace s.
Definition trimEnd (s : jsstring) : jsstring := rev (dropWhile Chr.isSpace (rev s)).
Definition trim (s : jsstring) : jsstring := trimEnd (trimStart s).

(** [s.slice(a, b)] for [0 <= a] and [0 <= b]. *)
Definition slice (s : jsstring) (a b : nat) : jsstring := firstn (b - a) (skipn a s).

Definition toLowerCase (s : jsstring) : jsstring := map Chr.toLower s.

(** [s.includes(c)] for a one-character needle. *)
Definition includesChar (c : ascii) (s : jsstring) : bool := existsb (Chr.eqb c) s.

(** [s.replace(/\r\n/g, "\n")] *)
Fixpoint replaceCRLF (s : jsstring) : jsstring :=
  match s with
  | c :: r =>
      match r with
      | d :: r' =>
          if Chr.isCode 13 c && Chr.isCode 10 d then Chr.LF :: replaceCRLF r'
          else c :: replaceCRLF r
      | [] => [c]
      end
  | [] => []
  end.

(** [xs.join(sep)] *)
Fixpoint join (sep : jsstring) (xs : list jsstring) : jsstring :=
  match xs with
  | [] => []
  | [x] => x
  | x :: r => x ++ sep ++ join sep r
  end.

Definition digitVal (c : ascii) : Z := Z.of_nat (Chr.code c - 48).

(** [Number(s)] for the strings that are unsigned decimal integers, possibly
    surrounded by white space; [Number("")] is 0, and [None] is NaN.  Every
    question id [extractQaPairs] produces and every capture of [\d{1,3}] is in
    this domain; the other numeric literals of JavaScript (signs, fractions,
    exponents, other radixes, Infinity) are answered NaN here. *)
Definition Number (s : jsstring) : option Z :=
  let t := trim s in
  if forallb Chr.isDigit t
  then Some (fold_left (fun acc c => 10 * acc + digitVal c)%Z t 0%Z)
  else None.

(** [String(n)] for an integer. *)
Definition ofZ (n : Z) : jsstring := str (NilZero.string_of_int (Z.to_int n)).

(** [a - b] on numbers that may be NaN. *)
Definition sub (a b : option Z) : option Z :=
  match a, b with
  | Some x, Some y => Some (x - y)%Z
  | _, _ => None
  end.

(** ** [Array.prototype.sort(cmp)]

    [x] is put before the first [y] for which [cmp x y] is not positive (NaN
    counts as 0), so equal elements keep their order. *)
Section Sort.
Variable A : Type.
Variable cmp : A -> A -> option Z.

Definition notAfter (x y : A) : bool :=
  match cmp x y with
  | Some v => (v <=? 0)%Z
  | None => true
  end.

Fixpoint insert (x : A) (l : list A) : list A :=
  match l with
  | [] => [x]
  | y :: r => if notAfter x y then x :: l else y :: insert x r
  end.

Fixpoint sort (l : list A) : list A :=
  match l with
  | [] => []
  | x :: r => insert x (sort r)
  end.
End Sort.

(** ** [Map] with string keys, in insertion order *)
Section Map.
Variable V : Type.

Definition jsmap := list (jsstring * V).

Fixpoint get (m : jsmap) (k : jsstring) : option V :=
  match m with
  | [] => None
  | (k', v) :: r => if eqb k' k then Some v else get r k
  end.

(** [m.set(k, v)]: a present key keeps its place and takes the new value, a
    new key goes last. *)
Fixpoint set (m : jsmap) (k : jsstring) (v : V) : jsmap :=
  match m with
  | [] => [(k, v)]
  | (k', v') :: r => if eqb k' k then (k', v) :: r else (k', v') :: set r k v
  end.

Definition has (m : jsmap) (k : jsstring) : bool :=
  match get m k with Some _ => true | None => false end.

(** [new Map(entries)] *)
Definition ofEntries (es : list (jsstring * V)) : jsmap :=
  fold_left (fun m e => set m (fst e) (snd e)) es [].

Definition keys (m : jsmap) : list jsstring := map fst m.
Definition values (m : jsmap) : list V := map snd m.
End Map.

(** [new Set(xs)], in insertion order. *)
Definition setAdd (s : list jsstring) (x : jsstring) : list jsstring :=
  if existsb (eqb x) s then s else s ++ [x].

Definition setOf (xs : list jsstring) : list jsstring := fold_left setAdd xs [].

End Js.

(** ** Regular expressions

    The constructs the patterns of the source use.  A quantifier applies to a
    one-character class ([\s*], [\d{1,3}]) or is the optional group [(...)?]. *)
Module Regex.

Inductive regex : Type :=
| Empty
| Class (p : ascii -> bool)
| Seq (r1 r2 : regex)
| Alt (r1 r2 : regex)
| Opt (r : regex)
| Star (p : ascii -> bool)
| Rep (p : ascii -> bool) (lo hi : nat)
| Bol
| WordB
| Group (i : nat) (r : regex).

(** The characters of [s] one after the other, each under [f]. *)
Definition lit (f : ascii -> ascii -> bool) (s : jsstring) : regex :=
  fold_right (fun c r => Seq (Class (f c)) r) Empty s.

(** The captures: the latest entry of a group number is its value. *)
Definition captures := list (nat * jsstring).

Fixpoint capture (cs : captures) (i : nat) : option jsstring :=
  match cs with
  | [] => None
  | (j, w) :: r => if (j =? i)%nat then Some w else capture r i
  end.

(** A position of the matcher in the text: [before] is what lies left of it,
    nearest character first, [after] what lies right of it. *)
Record mstate : Type := MState {
  before : jsstring;
  after : jsstring;
  caps : captures
}.

(** What was read between the positions of [st] and [st']. *)
Definition consumed (st st' : mstate) : jsstring :=
  rev (firstn (length (before st') - length (before st)) (before st')).

Definition wordAt (s : jsstring) : bool :=
  match s with
  | c :: _ => Chr.isWord c
  | [] => false
  end.

Section Loops.
Variable p : ascii -> bool.
Variable k : mstate -> option mstate.

(** [c*], greedy: as many as possible first, then one fewer, and so on. *)
Fixpoint star (l r : jsstring) (cs : captures) : option mstate :=
  match r with
  | c :: r' =>
      if p c then
        match star (c :: l) r' cs with
        | Some out => Some out
        | None => k (MState l r cs)
        end
      else k (MState l r cs)
  | [] => k (MState l r cs)
  end.

(** [c{lo,hi}], greedy. *)
Fixpoint rep (lo hi : nat) (l r : jsstring) (cs : captures) : option mstate :=
  let stop := if (lo =? 0)%nat then k (MState l r cs) else None in
  match hi with
  | O => stop
  | S hi' =>
      match r with
      | c :: r' =>
          if p c then
            match rep (pred lo) hi' (c :: l) r' cs with
            | Some out => Some out
            | None => stop
            end
          else stop
      | [] => stop
      end
  end.
End Loops.

(** [exec r k st]: match [r] at [st], then go on with [k]; the first
    alternative that lets [k] succeed is the answer. *)
Fixpoint exec (r : regex) (k : mstate -> option mstate) (st : mstate) : option mstate :=
  match r with
  | Empty => k st
  | Class p =>
      match after st with
      | c :: r' => if p c then k (MState (c :: before st) r' (caps st)) else None
      | [] => None
      end
  | Seq r1 r2 => exec r1 (exec r2 k) st
  | Alt r1 r2 =>
      match exec r1 k st with
      | Some out => Some out
      | None => exec r2 k st
      end
  | Opt r1 =>
      match exec r1 k st with
      | Some out => Some out
      | None => k st
      end
  | Star p => star p k (before st) (after st) (caps st)
  | Rep p lo hi => rep p k lo hi (before st) (after st) (caps st)
  | Bol => match before st with [] => k st | _ :: _ => None end
  | WordB => if xorb (wordAt (before st)) (wordAt (after st)) then k st else None
  | Group i r1 =>
      exec r1 (fun st' =>
        k (MState (before st') (after st') ((i, consumed st st') :: caps st'))) st
  end.

(** A match: [index] is where it starts, [whole] is [m[0]]. *)
Record rmatch : Type := RMatch {
  index : nat;
  whole : jsstring;
  groups : captures
}.

(** [m[i]], when group [i] took part in the match. *)
Definition group (m : rmatch) (i : nat) : option jsstring := capture (groups m) i.

(** One attempt, at the position that has [l] on its left and [r] on its right. *)
Definition execAt (re : regex) (l r : jsstring) : option rmatch :=
  let st := MState l r [] in
  match exec re Some st with
  | Some st' => Some (RMatch (length l) (consumed st st') (caps st'))
  | None => None
  end.

(** The scan of a global regex: the attempts go from left to right, and after
    a match the next attempt is at its end ([skip] counts the positions to
    pass over), one further when the match is empty. *)
Fixpoint scan (re : regex) (l r : jsstring) (skip : nat) : list rmatch :=
  let here := match skip with O => execAt re l r | S _ => None end in
  match here with
  | Some m =>
      m :: match r with
           | c :: r' => scan re (c :: l) r' (pred (length (whole m)))
           | [] => []
           end
  | None =>
      match r with
      | c :: r' => scan re (c :: l) r' (pred skip)
      | [] => []
      end
  end.

(** [text.matchAll(re)], and the matches of a loop over [re.exec(text)]. *)
Definition matchAll (re : regex) (text : jsstring) : list rmatch := scan re [] text 0.

(** [text.match(re)] without the g flag: the first match. *)
Definition matchFirst (re : regex) (text : jsstring) : option rmatch := hd_error (matchAll re text).

End Regex.

(** ** services/extractQaPairs.ts *)
Module ExtractQaPairs.
Import Regex.

Record QaPair : Type := mkQaPair { questionId : jsstring; text : jsstring }.

Record Marker : Type := mkMarker { idx : nat; qid : jsstring; markerLen : nat }.

(** The pattern of [extractQaPairs], flags g and i, piece by piece:
    [(^|\n)]  [\s*]  [(?: Q (?:uestion)? \s* )?]  [(\d{1,3})]  [\s*]  [[:.)-]]  [\s*] *)
Definition re : regex :=
  Seq (Group 1 (Alt Bol (Class (Chr.eqb Chr.LF))))
 (Seq (Star Chr.isSpace)
 (Seq (Opt (Seq (Class (Chr.ci "Q"%char))
           (Seq (Opt (lit Chr.ci (str "uestion")))
                (Star Chr.isSpace))))
 (Seq (Group 2 (Rep Chr.isDigit 1 3))
 (Seq (Star Chr.isSpace)
 (Seq (Class (Chr.oneOf ":.)-"))
      (Star Chr.isSpace)))))).

Definition orEmpty (o : option jsstring) : jsstring :=
  match o with Some s => s | None => [] end.

(** The body of the [for (;;)] loop for one match [m]:
    [m[1]?.length ?? 0] is [length (orEmpty (group m 1))]. *)
Definition markerOf (m : rmatch) : Marker :=
  let lead := length (orEmpty (group m 1)) in
  {| idx := index m + lead;
     qid := match group m 2 with Some s => s | None => str "undefined" end;
     markerLen := length (whole m) - lead |}.

Definition findMarkers (text : jsstring) : list Marker :=
  map markerOf (matchAll re text).

(** The loop that fills [pairs]: the span of a marker runs from its end to
    the start of the next marker, or to the end of the text. *)
Fixpoint spans (text : jsstring) (markers : list Marker) : list QaPair :=
  match markers with
  | [] => []
  | m :: rest =>
      let start := idx m + markerLen m in
      let stop := match rest with m' :: _ => idx m' | [] => length text end in
      mkQaPair (qid m) (Js.trim (Js.slice text start stop)) :: spans text rest
  end.

Definition normalise (rawText : jsstring) : jsstring := Js.trim (Js.replaceCRLF rawText).

(** The question ids compared as numbers. *)
Definition byNumber (a b : QaPair) : option Z :=
  Js.sub (Js.Number (questionId a)) (Js.Number (questionId b)).

Definition dedup (pairs : list QaPair) : list QaPair :=
  Js.values (fold_left (fun byId p => Js.set byId (questionId p) p) pairs []).

Definition extractQaPairs (rawText : jsstring) : list QaPair :=
  let text := normalise rawText in
  match text with
  | [] => []
  | _ :: _ =>
      let markers := findMarkers text in
      match markers with
      | [] => [mkQaPair (str "1") text]
      | _ :: _ => Js.sort byNumber (dedup (spans text markers))
      end
  end.

End ExtractQaPairs.

(** ** services/extractScore.ts *)
Module ExtractScore.
Import Regex.

Inductive Method : Type := fraction | out_of | label | fallback.

Record Candidate : Type := mkCandidate {
  c_obtained : Z;
  c_outOf : option Z;
  c_raw : jsstring
}.

Record ExtractedScore : Type := mkExtractedScore {
  obtained : option Z;
  outOf : option Z;
  confidence : Q;
  method : Method;
  candidates : list Candidate
}.

(** [s.replace(/[ \t]+/g, " ")]: [inRun] tells that the character before was
    a blank or a tab, already replaced. *)
Fixpoint collapseBlanks (inRun : bool) (s : jsstring) : jsstring :=
  match s with
  | [] => []
  | c :: r =>
      if Chr.isCode 32 c || Chr.isCode 9 c
      then if inRun then collapseBlanks true r else Chr.SP :: collapseBlanks true r
      else c :: collapseBlanks false r
  end.

Definition normalize (s : jsstring) : jsstring :=
  Js.trim (collapseBlanks false (Js.replaceCRLF (Js.toLowerCase s))).

(** [(\d{1,3})] as group [i] *)
Definition digits (i : nat) : regex := Group i (Rep Chr.isDigit 1 3).

(** [\b(\d{1,3})\s*\/\s*(\d{1,3})\b], flag g *)
Definition reFraction : regex :=
  Seq WordB (Seq (digits 1) (Seq (Star Chr.isSpace) (Seq (Class (Chr.eqb "/"%char))
 (Seq (Star Chr.isSpace) (Seq (digits 2) WordB))))).

(** [\b(\d{1,3})\s*(?:out\s*of)\s*(\d{1,3})\b], flag g *)
Definition reOutOf : regex :=
  Seq WordB (Seq (digits 1) (Seq (Star Chr.isSpace)
 (Seq (lit Chr.eqb (str "out")) (Seq (Star Chr.isSpace) (Seq (lit Chr.eqb (str "of"))
 (Seq (Star Chr.isSpace) (Seq (digits 2) WordB))))))).

(** [\b(\d{1,3})\b] *)
Definition reNumber : regex := Seq WordB (Seq (digits 1) WordB).

(** [new RegExp(`\\b${escapeRe(labelHint)}\\b`, "g")]: the escaped hint
    matches itself, character by character. *)
Definition reLabel (labelHint : jsstring) : regex :=
  Seq WordB (Seq (lit Chr.eqb labelHint) WordB).

(** [Number(m[i])]; a group that took no part is [undefined], whose number
    is NaN. *)
Definition groupNumber (m : rmatch) (i : nat) : option Z :=
  match group m i with
  | Some s => Js.Number s
  | None => None
  end.

(** The body of the two loops over the fraction and the "out of" matches:
    [None] is [continue]. *)
Definition pairCandidate (m : rmatch) : option Candidate :=
  match groupNumber m 1, groupNumber m 2 with
  | Some o, Some t =>
      if (t <=? 0)%Z then None
      else if (o <? 0)%Z || (o >? t)%Z then None
      else Some (mkCandidate o (Some t) (whole m))
  | _, _ => None
  end.

Fixpoint filterMap (A B : Type) (f : A -> option B) (l : list A) : list B :=
  match l with
  | [] => []
  | x :: r => match f x with Some y => y :: filterMap f r | None => filterMap f r end
  end.

(** The candidates after the two loops, on the normalized text. *)
Definition pairCandidates (text : jsstring) : list Candidate :=
  filterMap pairCandidate (matchAll reFraction text)
  ++ filterMap pairCandidate (matchAll reOutOf text).

Definition optZeqb (a b : option Z) : bool :=
  match a, b with
  | Some x, Some y => (x =? y)%Z
  | None, None => true
  | _, _ => false
  end.

Definition hasSlash (s : jsstring) : bool := Js.includesChar "/"%char s.

Definition pickBestPair (cands : list Candidate) (expectedOutOf : option Z) : option Candidate :=
  match cands with
  | [] => None
  | _ :: _ =>
      let scored := map (fun c =>
        let score := 0%Z in
        let score := match c_outOf c with Some t => (score + t)%Z | None => score end in
        let score :=
          match expectedOutOf with
          | Some e => if optZeqb (c_outOf c) (Some e) then (score + 1000)%Z else score
          | None => score
          end in
        let score := if hasSlash (c_raw c) then (score + 5)%Z else score in
        (c, score)) cands in
      let sorted := Js.sort (fun a b => Some (snd b - snd a)%Z) scored in
      option_map fst (hd_error sorted)
  end.

(** The first match of [\b(\d{1,3})\b] in the 60 characters from a label on. *)
Definition windowNumber (text : jsstring) (m : rmatch) : option Z :=
  let start := index m in
  let window := Js.slice text start (Nat.min (length text) (start + 60)) in
  match matchFirst reNumber window with
  | Some nm => groupNumber nm 1
  | None => None
  end.

Fixpoint firstNear (text : jsstring) (expectedOutOf : Z) (ms : list rmatch) : option Z :=
  match ms with
  | [] => None
  | m :: rest =>
      match windowNumber text m with
      | Some o => if (0 <=? o)%Z && (o <=? expectedOutOf)%Z then Some o
                  else firstNear text expectedOutOf rest
      | None => firstNear text expectedOutOf rest
      end
  end.

Definition findNearLabelNumber (text labelHint : jsstring) (expectedOutOf : Z) : option Z :=
  firstNear text expectedOutOf (matchAll (reLabel labelHint) text).

(** The numbers of the last strategy: every [\b(\d{1,3})\b] from 0 to 100. *)
Definition plausibleNumbers (text : jsstring) : list Z :=
  filter (fun n => (0 <=? n)%Z && (n <=? 100)%Z)
         (filterMap (fun m => groupNumber m 1) (matchAll reNumber text)).

(** [(params.labelHint || "marks").toLowerCase()]: the default stands in for
    an absent and for an empty hint. *)
Definition labelOf (labelHint0 : option jsstring) : jsstring :=
  Js.toLowerCase (match labelHint0 with
                  | Some (c :: h) => c :: h
                  | _ => str "marks"
                  end).

(** [params.expectedOutOf] is [Some e] for a finite number [e], an integer in
    this embedding, and [None] when it is absent or not finite, which
    [Number.isFinite] turns into [undefined]. *)
Definition extractScoreFromText (text0 : jsstring) (expectedOutOf : option Z)
    (labelHint0 : option jsstring) : ExtractedScore :=
  let text := normalize text0 in
  let labelHint := labelOf labelHint0 in
  let candidates := pairCandidates text in
  match pickBestPair candidates expectedOutOf with
  | Some bestPair =>
      let method := if hasSlash (c_raw bestPair) then fraction else out_of in
      let truthy := match expectedOutOf with Some e => negb (e =? 0)%Z | None => false end in
      mkExtractedScore (Some (c_obtained bestPair)) (c_outOf bestPair)
        (if truthy && optZeqb (c_outOf bestPair) expectedOutOf then 0.95%Q else 0.85%Q)
        method candidates
  | None =>
      (* 4) any plausible number from 0 to 100, then no number at all *)
      let lastResort :=
        match plausibleNumbers text with
        | o :: _ =>
            mkExtractedScore (Some o) expectedOutOf 0.25%Q fallback
              (candidates ++ [mkCandidate o expectedOutOf (Js.ofZ o)])
        | [] => mkExtractedScore None expectedOutOf 0%Q fallback candidates
        end in
      (* 3) a number near the label, when the expected total is supplied *)
      match expectedOutOf with
      | Some e =>
          match findNearLabelNumber text labelHint e with
          | Some o =>
              mkExtractedScore (Some o) (Some e) 0.65%Q label
                (candidates ++ [mkCandidate o (Some e) (labelHint ++ str ": " ++ Js.ofZ o)])
          | None => lastResort
          end
      | None => lastResort
      end
  end.

End ExtractScore.

(** ** services/gradingHeuristic.ts *)
Module GradingHeuristic.
Import ExtractQaPairs.

Record Deduction : Type := mkDeduction { reason : jsstring; marks : R }.

Record QuestionResult : Type := mkQuestionResult {
  q_questionId : jsstring;
  marksAwarded : R;
  maxMarks : R;
  feedback : jsstring;
  deductions : list Deduction;
  q_weakAreas : list jsstring
}.

Record Evaluation : Type := mkEvaluation {
  totalMarks : R;
  maxTotalMarks : R;
  overallFeedback : jsstring;
  weakAreas : list jsstring;
  confidence : R;
  questions : list QuestionResult
}.

Definition STOP_WORDS : list jsstring := map str
  ["a";"an";"the";"and";"or";"but";"if";"then";"else";"when";"while";"of";"to";"in";"on";"at";"by";"for";"from";"with";
   "is";"are";"was";"were";"be";"been";"being";"as";"it";"this";"that";"these";"those";"we";"you";"they";"i";"he";"she";
   "not";"no";"yes";"do";"does";"did";"done";"can";"could";"should";"would";"may";"might";"must";"will";"shall";
   "there";"here";"than";"so";"such";"also";"into";"over";"under";"between";"within";"without"]%string.

Definition clamp (n min max : R) : R := Rmin max (Rmax min n).

(** [Math.round]: the nearest integer, a half going up. *)
Definition round (x : R) : R := IZR (Int_part (x + / 2)%R).

(** [s.split(/\s+/)]: [inSep] tells that the character before was white
    space, [cur] is the piece being read, last character first. *)
Fixpoint splitSpaces (inSep : bool) (cur : jsstring) (s : jsstring) : list jsstring :=
  match s with
  | [] => [rev cur]
  | c :: r =>
      if Chr.isSpace c
      then if inSep then splitSpaces true [] r else rev cur :: splitSpaces true [] r
      else splitSpaces false (c :: cur) r
  end.

Definition tokenize (text : jsstring) : list jsstring :=
  let lowered := Js.toLowerCase text in
  let cleaned :=
    map (fun c => if Chr.isLowerAlnum c || Chr.isSpace c then c else Chr.SP) lowered in
  let pieces := map Js.trim (splitSpaces false [] cleaned) in
  filter (fun t => (2 <=? length t)%nat && negb (existsb (Js.eqb t) STOP_WORDS)) pieces.

Definition getOr0 (m : Js.jsmap nat) (k : jsstring) : nat :=
  match Js.get m k with Some v => v | None => O end.

Definition termFreq (tokens : list jsstring) : Js.jsmap nat :=
  fold_left (fun m t => Js.set m t (getOr0 m t + 1)%nat) tokens [].

Definition cosineSimilarity (a b : jsstring) : R :=
  let ta := tokenize a in
  let tb := tokenize b in
  if ((length ta =? 0) || (length tb =? 0))%nat then 0%R
  else
    let fa := termFreq ta in
    let fb := termFreq tb in
    let normA := fold_left (fun acc v => acc + v * v)%nat (Js.values fa) O in
    let normB := fold_left (fun acc v => acc + v * v)%nat (Js.values fb) O in
    let dot := fold_left (fun acc e => acc + snd e * getOr0 fb (fst e))%nat fa O in
    if ((normA =? 0) || (normB =? 0))%nat then 0%R
    else clamp (INR dot / (sqrt (INR normA) * sqrt (INR normB)))%R 0%R 1%R.

(** [(a, b) => b[1] - a[1]]: the larger count first. *)
Definition byCountDesc (a b : jsstring * nat) : option Z :=
  Some (Z.of_nat (snd b) - Z.of_nat (snd a))%Z.

Definition longToken (t : jsstring) : bool := (5 <=? length t)%nat.

Definition extractKeyPhrases (modelAnswer : jsstring) (limit : nat) : list jsstring :=
  let tokens := filter longToken (tokenize modelAnswer) in
  let freq := termFreq tokens in
  map fst (firstn limit (Js.sort byCountDesc freq)).

Definition missingKeywords (modelAnswer studentAnswer : jsstring) (limit : nat) : list jsstring :=
  let modelTokens := filter longToken (tokenize modelAnswer) in
  let studentSet := Js.setOf (tokenize studentAnswer) in
  let freq := termFreq modelTokens in
  map fst (firstn limit (Js.sort byCountDesc
    (filter (fun e => negb (existsb (Js.eqb (fst e)) studentSet)) freq))).

Definition aggregateWeakAreas (areas : list jsstring) : list jsstring :=
  map fst (firstn 10 (Js.sort byCountDesc (termFreq areas))).

(** [!s] for a string and [!xs.length] for an array. *)
Definition isEmpty (A : Type) (s : list A) : bool := match s with [] => true | _ :: _ => false end.

Definition textOf (m : Js.jsmap jsstring) (id : jsstring) : jsstring :=
  Js.trim (match Js.get m id with Some t => t | None => [] end).

(** The callback of [questionIds.map]. *)
Definition gradeQuestion (modelById studentById : Js.jsmap jsstring) (maxMarksPerQuestion : R)
    (id : jsstring) : QuestionResult :=
  let modelAnswer := textOf modelById id in
  let studentAnswer := textOf studentById id in
  let maxMarks := maxMarksPerQuestion in
  if isEmpty studentAnswer then
    mkQuestionResult id 0%R maxMarks (str "No answer detected for this question.")
      [mkDeduction (str "Blank or unreadable answer") maxMarks]
      (if isEmpty modelAnswer then [] else extractKeyPhrases modelAnswer 6)
  else if isEmpty modelAnswer then
    mkQuestionResult id 0%R maxMarks
      (str "Model answer for this question was not detected; cannot grade reliably.")
      [mkDeduction (str "Missing model answer") maxMarks]
      []
  else
    let sim := cosineSimilarity modelAnswer studentAnswer in
    let raw := (sim * maxMarks)%R in
    let marksAwarded := clamp (round (raw * 2) / 2)%R 0%R maxMarks in
    let missing := missingKeywords modelAnswer studentAnswer 6 in
    let full := if Req_dec_T marksAwarded maxMarks then true else false in
    let deductions :=
      if full then []
      else [mkDeduction
              (if isEmpty missing then str "Answer differs from model key"
               else str "Missing key points: " ++ Js.join (str ", ") missing)
              (clamp (maxMarks - marksAwarded)%R 0%R maxMarks)] in
    let feedback :=
      if full then str "Matches the model answer closely."
      else if isEmpty missing
           then str "Partially correct. Add more specific points from the model answer."
           else str "Partially correct. Improve coverage of: " ++ Js.join (str ", ") missing ++ str "." in
    mkQuestionResult id marksAwarded maxMarks feedback deductions missing.

Definition entries (qa : list QaPair) : list (jsstring * jsstring) :=
  map (fun q => (questionId q, text q)) qa.

(** [(a, b) => Number(a) - Number(b)] *)
Definition byNumericId (a b : jsstring) : option Z := Js.sub (Js.Number a) (Js.Number b).

Definition gradeSubmissionHeuristic (modelQa studentQa : list QaPair)
    (maxMarksPerQuestion : R) : Evaluation :=
  let modelById := Js.ofEntries (entries modelQa) in
  let studentById := Js.ofEntries (entries studentQa) in
  let questionIds :=
    Js.sort byNumericId (Js.setOf (Js.keys modelById ++ Js.keys studentById)) in
  let questions := map (gradeQuestion modelById studentById maxMarksPerQuestion) questionIds in
  let maxTotalMarks := fold_left (fun acc q => acc + maxMarks q)%R questions 0%R in
  let totalMarks := fold_left (fun acc q => acc + marksAwarded q)%R questions 0%R in
  let weakAreasAgg := aggregateWeakAreas (flat_map q_weakAreas questions) in
  mkEvaluation totalMarks maxTotalMarks
    (str "Heuristic grading used (free, no LLM). For best accuracy and richer feedback, enable OpenAI billing or use a local LLM.")
    weakAreasAgg 0.35%R questions.

End GradingHeuristic.

(** * The callers of the three services *)

(** ** services/extractText.ts *)
Module ExtractText.
Import Regex.

(** [text.replace(re, rep)] for a global regex and a replacement without
    [$]: the matches are those of the scan, each becomes [rep], and what lies
    between them is kept.  [skip] counts the characters of the match being
    replaced that are still to pass over. *)
Fixpoint replaceScan (re : regex) (rep : jsstring) (l r : jsstring) (skip : nat) : jsstring :=
  match skip with
  | S k =>
      match r with
      | c :: r' => replaceScan re rep (c :: l) r' k
      | [] => []
      end
  | O =>
      match execAt re l r with
      | Some m =>
          rep ++ match r with
                 | c :: r' =>
                     match length (whole m) with
                     | O => c :: replaceScan re rep (c :: l) r' 0
                     | S n => replaceScan re rep (c :: l) r' n
                     end
                 | [] => []
                 end
      | None =>
          match r with
          | c :: r' => c :: replaceScan re rep (c :: l) r' 0
          | [] => []
          end
      end
  end.

Definition replaceAll (re : regex) (rep : jsstring) (text : jsstring) : jsstring :=
  replaceScan re rep [] text 0.

(** [[ \t]] *)
Definition isBlank (c : ascii) : bool := Chr.isCode 32 c || Chr.isCode 9 c.

(** [[ \t]+\n], flag g *)
Definition reBlanksNewline : regex :=
  Seq (Class isBlank) (Seq (Star isBlank) (Class (Chr.eqb Chr.LF))).

Definition normalizeText (text : jsstring) : jsstring :=
  Js.trim (replaceAll reBlanksNewline [Chr.LF] (Js.replaceCRLF text)).

Record TextExtractionResult : Type := mkResult {
  text : jsstring;
  warnings : list jsstring;
  mime : jsstring
}.

(** What [pdf(file.buffer)] does: it gives the text of the document, or
    throws an error, of which [String(err?.message || "")] and
    [String(err?.details || "")] are kept. *)
Inductive PdfOutcome : Type :=
| PdfParsed (text : jsstring)
| PdfThrows (msg details : jsstring).

(** What an OCR call does: it gives a text, or throws. *)
Inductive OcrOutcome : Type :=
| OcrText (text : jsstring)
| OcrThrows.

(** What the function reads from its environment and from the libraries it
    awaits. *)
Record World : Type := mkWorld {
  OCR_PROVIDER : option jsstring;
  detected : option jsstring;
  pdfParse : PdfOutcome;
  googleVision : OcrOutcome;
  tesseract : OcrOutcome
}.

(** [a || b] on strings *)
Definition orElse (a b : jsstring) : jsstring :=
  match a with [] => b | _ :: _ => a end.

Definition ofOption (o : option jsstring) : jsstring :=
  match o with Some s => s | None => [] end.

(** [/xref/i.test(s)] and the like: a pattern that is a word in either case. *)
Definition testCI (word : string) (s : jsstring) : bool :=
  match matchAll (lit Chr.ci (str word)) s with [] => false | _ :: _ => true end.

Definition pdfWarning (msg details : jsstring) : jsstring :=
  let isBadXref := testCI "xref" msg || testCI "xref" details || testCI "bad xref entry" msg in
  if isBadXref
  then str "PDF parsing failed (bad XRef entry). The PDF is likely corrupted or non-standard. Re-save/print-to-PDF and retry, or upload images."
  else str "PDF parsing failed. " ++ orElse msg (orElse details (str "Unknown PDF error")).

(** [warnings.push(w)] under a condition *)
Definition pushIf (b : bool) (w : string) (ws : list jsstring) : list jsstring :=
  if b then ws ++ [str w] else ws.

(** [extractTextFromUpload]: [None] when an awaited OCR call throws. *)
Definition extractTextFromUpload (w : World) (mimetype : jsstring) : option TextExtractionResult :=
  let ocrProvider := orElse (ofOption (OCR_PROVIDER w)) (str "pdf_text") in
  let mime := orElse (ofOption (detected w)) (orElse mimetype (str "application/octet-stream")) in
  if Js.eqb mime (str "application/pdf") then
    let noText :=
      let warnings :=
        [str "PDF has no extractable text. If this is a scanned/handwritten PDF, upload page images or paste text."] in
      let warnings := pushIf (Js.eqb ocrProvider (str "google_vision"))
        "Google Vision OCR for PDFs is not enabled in this MVP (needs GCS async batch). Use images or paste text."
        warnings in
      let warnings := pushIf (Js.eqb ocrProvider (str "tesseract"))
        "Tesseract OCR for PDFs is not enabled in this MVP (needs PDF->image conversion). Use images or paste text."
        warnings in
      Some (mkResult [] warnings mime) in
    match pdfParse w with
    | PdfParsed parsed =>
        match Js.trim parsed with
        | _ :: _ => Some (mkResult (normalizeText parsed) [] mime)
        | [] => noText
        end
    | PdfThrows msg details => Some (mkResult [] [pdfWarning msg details] mime)
    end
  else
    let warnings := pushIf (Js.eqb mime (str "application/octet-stream"))
      "Unknown file type. If this is an iPhone HEIC photo, convert to JPG/PNG and retry." [] in
    if Js.eqb mime (str "image/heic") || Js.eqb mime (str "image/heif") then
      Some (mkResult []
              (pushIf true "HEIC/HEIF images are not supported by this OCR pipeline. Convert to JPG/PNG and retry." warnings)
              mime)
    else if Js.eqb ocrProvider (str "google_vision") then
      match googleVision w with
      | OcrText t =>
          let text := normalizeText t in
          Some (mkResult text
                  (pushIf (GradingHeuristic.isEmpty text)
                     "OCR produced empty text. For handwriting, ensure the photo is sharp and well-lit." warnings)
                  mime)
      | OcrThrows => None
      end
    else if Js.eqb ocrProvider (str "tesseract") then
      match tesseract w with
      | OcrText t =>
          let text := normalizeText t in
          Some (mkResult text
                  (pushIf (GradingHeuristic.isEmpty text)
                     "Tesseract returned empty text. This often happens with handwriting, low contrast, or rotated images. Try a clearer photo or use OCR_PROVIDER=google_vision for handwriting."
                     warnings)
                  mime)
      | OcrThrows => None
      end
    else
      Some (mkResult []
              (pushIf true "No OCR provider configured for images. Set OCR_PROVIDER=tesseract or OCR_PROVIDER=google_vision." warnings)
              mime).

End ExtractText.

(** ** services/grading.ts *)
Module Grading.
Import ExtractQaPairs GradingHeuristic.
Local Open Scope R_scope.

Definition clamp (n min max : R) : R := Rmin max (Rmax min n).






End Grading.


(** * Properties *)

(** ** Strings, maps and sorting *)
Module JsFacts.

Lemma eqb_eq (a b : jsstring) : Js.eqb a b = true <-> a = b.
Proof.
  revert b. induction a as [|x a IH]; destruct b as [|y b]; simpl;
    try (split; [discriminate|congruence]); [tauto|].
  rewrite andb_true_iff, Ascii.eqb_eq, IH. split; [intros [-> ->]|intros [= -> ->]]; auto.
Qed.

Lemma eqb_refl (a : jsstring) : Js.eqb a a = true.
Proof. now apply eqb_eq. Qed.

Lemma eqb_neq (a b : jsstring) : Js.eqb a b = false <-> a <> b.
Proof.
  split.
  - intros H E. apply eqb_eq in E. congruence.
  - intros H. destruct (Js.eqb a b) eqn:E; [apply eqb_eq in E; contradiction|reflexivity].
Qed.

Lemma eqb_sym (a b : jsstring) : Js.eqb a b = Js.eqb b a.
Proof.
  destruct (Js.eqb a b) eqn:E.
  - apply eqb_eq in E. subst. symmetry. apply eqb_refl.
  - apply eqb_neq in E. symmetry. apply eqb_neq. congruence.
Qed.

(** *** [sort] permutes, and orders when the comparator is a difference of keys *)
Section SortFacts.
Variable A : Type.
Variable cmp : A -> A -> option Z.

Lemma insert_perm (x : A) (l : list A) : Permutation (x :: l) (Js.insert cmp x l).
Proof.
  induction l as [|y r IH]; simpl; [reflexivity|].
  destruct (Js.notAfter cmp x y); [reflexivity|].
  rewrite perm_swap. now constructor.
Qed.

Lemma sort_perm (l : list A) : Permutation l (Js.sort cmp l).
Proof.
  induction l as [|x r IH]; simpl; [constructor|].
  rewrite <- insert_perm. now constructor.
Qed.

Lemma sort_In (l : list A) (x : A) : In x (Js.sort cmp l) <-> In x l.
Proof.
  split; apply Permutation_in; [symmetry|]; apply sort_perm.
Qed.

Variable key : A -> Z.
Hypothesis cmp_key : forall a b, cmp a b = Some (key a - key b)%Z.

Definition keyLe (a b : A) : Prop := (key a <= key b)%Z.

Lemma insert_sorted (x : A) (l : list A) :
  StronglySorted keyLe l -> StronglySorted keyLe (Js.insert cmp x l).
Proof.
  induction 1 as [|y r Hr IH Hy]; simpl; [repeat constructor|].
  unfold Js.notAfter. rewrite cmp_key.
  destruct (Z.leb_spec (key x - key y) 0).
  - constructor; [now constructor|].
    constructor; [unfold keyLe; lia|].
    eapply Forall_impl; [|exact Hy]. unfold keyLe. intros; lia.
  - constructor; [exact IH|].
    eapply Permutation_Forall; [apply insert_perm|].
    constructor; [unfold keyLe; lia|exact Hy].
Qed.

Lemma sort_sorted (l : list A) : StronglySorted keyLe (Js.sort cmp l).
Proof.
  induction l as [|x r IH]; simpl; [constructor|now apply insert_sorted].
Qed.
End SortFacts.

Lemma insert_ext (A : Type) (c1 c2 : A -> A -> option Z) (x : A) (l : list A) :
  (forall y, In y l -> c1 x y = c2 x y) -> Js.insert c1 x l = Js.insert c2 x l.
Proof.
  induction l as [|y t IH]; intros H; simpl; [reflexivity|].
  unfold Js.notAfter. rewrite (H y) by now left.
  rewrite IH by (intros; apply H; now right). reflexivity.
Qed.

(** Only the comparisons of the elements of the list count. *)
Lemma sort_ext (A : Type) (c1 c2 : A -> A -> option Z) (l : list A) :
  (forall a b, In a l -> In b l -> c1 a b = c2 a b) -> Js.sort c1 l = Js.sort c2 l.
Proof.
  induction l as [|x r IH]; intros H; simpl; [reflexivity|].
  rewrite IH by (intros; apply H; now right).
  apply insert_ext. intros y Hy. apply H; [now left|right].
  exact (proj1 (sort_In c2 r y) Hy).
Qed.

(** *** Maps *)
Section MapFacts.
Variable V : Type.

Lemma get_set (m : Js.jsmap V) (k k' : jsstring) (v : V) :
  Js.get (Js.set m k v) k' = if Js.eqb k k' then Some v else Js.get m k'.
Proof.
  induction m as [|[k0 v0] r IH]; simpl; [reflexivity|].
  destruct (Js.eqb k0 k) eqn:E0; simpl.
  - apply eqb_eq in E0. subst k0. destruct (Js.eqb k k'); reflexivity.
  - rewrite IH. destruct (Js.eqb k k') eqn:E1; [|reflexivity].
    apply eqb_eq in E1. subst k'. now rewrite E0.
Qed.

Lemma keys_set (m : Js.jsmap V) (k : jsstring) (v : V) :
  Js.keys (Js.set m k v) = if Js.has m k then Js.keys m else Js.keys m ++ [k].
Proof.
  unfold Js.has, Js.keys. induction m as [|[k0 v0] r IH]; simpl; [reflexivity|].
  destruct (Js.eqb k0 k) eqn:E0; simpl.
  - apply eqb_eq in E0. now subst.
  - rewrite IH. destruct (Js.get r k); reflexivity.
Qed.

Lemma has_In (m : Js.jsmap V) (k : jsstring) : Js.has m k = true <-> In k (Js.keys m).
Proof.
  unfold Js.has, Js.keys. induction m as [|[k0 v0] r IH]; simpl.
  - split; [discriminate|tauto].
  - destruct (Js.eqb k0 k) eqn:E0.
    + apply eqb_eq in E0. split; auto.
    + apply eqb_neq in E0. rewrite IH. split; [auto|intros [?|?]; [contradiction|auto]].
Qed.

Lemma keys_set_NoDup (m : Js.jsmap V) (k : jsstring) (v : V) :
  NoDup (Js.keys m) -> NoDup (Js.keys (Js.set m k v)).
Proof.
  intros H. rewrite keys_set. destruct (Js.has m k) eqn:E; [exact H|].
  apply NoDup_app; [exact H|repeat constructor; intros []|].
  intros x Hx [<-|[]]. apply has_In in Hx. congruence.
Qed.

Lemma keys_set_In (m : Js.jsmap V) (k k' : jsstring) (v : V) :
  In k' (Js.keys (Js.set m k v)) <-> k' = k \/ In k' (Js.keys m).
Proof.
  rewrite keys_set. destruct (Js.has m k) eqn:E.
  - apply has_In in E. split; [auto|intros [->|?]; auto].
  - rewrite in_app_iff. simpl. intuition congruence.
Qed.

Lemma get_In (m : Js.jsmap V) (k : jsstring) (v : V) :
  Js.get m k = Some v -> In (k, v) m.
Proof.
  induction m as [|[k0 v0] r IH]; simpl; [discriminate|].
  destruct (Js.eqb k0 k) eqn:E0; [|auto].
  apply eqb_eq in E0. intros [= ->]. subst. now left.
Qed.

Lemma In_get (m : Js.jsmap V) (k : jsstring) (v : V) :
  NoDup (Js.keys m) -> In (k, v) m -> Js.get m k = Some v.
Proof.
  unfold Js.keys. induction m as [|[k0 v0] r IH]; simpl; [intros _ []|].
  intros Hnd [[= -> ->]|Hin].
  - now rewrite eqb_refl.
  - inversion Hnd as [|? ? Hk0 Hr]; subst.
    destruct (Js.eqb k0 k) eqn:E0; [|auto].
    apply eqb_eq in E0. subst k0. exfalso. apply Hk0.
    change k with (fst (k, v)). now apply in_map.
Qed.

Lemma In_set (m : Js.jsmap V) (k k' : jsstring) (v v' : V) :
  In (k', v') (Js.set m k v) -> (k' = k /\ v' = v) \/ In (k', v') m.
Proof.
  induction m as [|[k0 v0] r IH]; simpl.
  - intros [[= <- <-]|[]]. auto.
  - destruct (Js.eqb k0 k) eqn:E0; simpl.
    + apply eqb_eq in E0. subst k0. intros [[= <- <-]|?]; auto.
    + intros [?|?]; [auto|]. destruct (IH H); auto.
Qed.
End MapFacts.

(** *** Sets *)
Lemma setAdd_In (s : list jsstring) (x y : jsstring) :
  In y (Js.setAdd s x) <-> y = x \/ In y s.
Proof.
  unfold Js.setAdd. destruct (existsb (Js.eqb x) s) eqn:E.
  - apply existsb_exists in E. destruct E as [z [Hz E]]. apply eqb_eq in E. subst z.
    split; [auto|intros [->|?]; auto].
  - rewrite in_app_iff. simpl. intuition congruence.
Qed.

Lemma setAdd_NoDup (s : list jsstring) (x : jsstring) : NoDup s -> NoDup (Js.setAdd s x).
Proof.
  intros H. unfold Js.setAdd. destruct (existsb (Js.eqb x) s) eqn:E; [exact H|].
  apply NoDup_app; [exact H|repeat constructor; intros []|].
  intros y Hy [<-|[]].
  assert (existsb (Js.eqb x) s = true); [|congruence].
  apply existsb_exists. exists x. split; [exact Hy|apply eqb_refl].
Qed.

Lemma fold_setAdd (xs s : list jsstring) :
  NoDup s ->
  NoDup (fold_left Js.setAdd xs s)
  /\ forall y, In y (fold_left Js.setAdd xs s) <-> In y xs \/ In y s.
Proof.
  revert s. induction xs as [|x r IH]; intros s Hs; simpl.
  - split; [exact Hs|]. intros y. tauto.
  - destruct (IH (Js.setAdd s x) (setAdd_NoDup x Hs)) as [Hnd Hin].
    split; [exact Hnd|]. intros y. rewrite Hin, setAdd_In. intuition congruence.
Qed.

Lemma setOf_spec (xs : list jsstring) :
  NoDup (Js.setOf xs) /\ forall y, In y (Js.setOf xs) <-> In y xs.
Proof.
  destruct (@fold_setAdd xs [] (NoDup_nil _)) as [Hnd Hin].
  split; [exact Hnd|]. intros y. unfold Js.setOf. rewrite Hin. simpl. tauto.
Qed.

(** *** [trim] and [Number] on digit strings *)
Lemma digit_not_space (c : ascii) : Chr.isDigit c = true -> Chr.isSpace c = false.
Proof.
  unfold Chr.isDigit, Chr.isSpace, Chr.inRange, Chr.isCode.
  intros H. apply andb_true_iff in H. destruct H as [H1 H2].
  apply Nat.leb_le in H1. apply Nat.leb_le in H2.
  repeat rewrite orb_false_iff. repeat split.
  - apply andb_false_iff. right. apply Nat.leb_gt. lia.
  - apply Nat.eqb_neq. lia.
  - apply Nat.eqb_neq. lia.
Qed.

Lemma trim_digits (s : jsstring) : Forall (fun c => Chr.isDigit c = true) s -> Js.trim s = s.
Proof.
  intros H. unfold Js.trim, Js.trimEnd, Js.trimStart.
  assert (Hd : forall t, Forall (fun c => Chr.isDigit c = true) t -> Js.dropWhile Chr.isSpace t = t).
  { intros [|c t] Ht; [reflexivity|]. simpl. inversion Ht; subst.
    now rewrite digit_not_space. }
  rewrite (Hd s H). rewrite Hd; [apply rev_involutive|].
  apply Forall_forall. intros c Hc. apply in_rev in Hc.
  now apply (proj1 (Forall_forall _ _) H).
Qed.

Lemma Number_digits (s : jsstring) :
  Forall (fun c => Chr.isDigit c = true) s -> exists n, Js.Number s = Some n.
Proof.
  intros H. unfold Js.Number. rewrite (trim_digits H).
  rewrite (proj2 (forallb_forall _ _) (proj1 (Forall_forall _ _) H)). eauto.
Qed.

End JsFacts.

(** ** The matcher *)
Module RegexFacts.
Import Regex.

(** [matches r w cs cs']: the word [w] has the shape of [r], and reading it
    turns the captures [cs] into [cs'].  The assertions [^] and [\b] read
    nothing. *)
Inductive matches : regex -> jsstring -> captures -> captures -> Prop :=
| M_Empty cs : matches Empty [] cs cs
| M_Class p c cs : p c = true -> matches (Class p) [c] cs cs
| M_Seq r1 r2 w1 w2 cs cs1 cs2 :
    matches r1 w1 cs cs1 -> matches r2 w2 cs1 cs2 -> matches (Seq r1 r2) (w1 ++ w2) cs cs2
| M_AltL r1 r2 w cs cs' : matches r1 w cs cs' -> matches (Alt r1 r2) w cs cs'
| M_AltR r1 r2 w cs cs' : matches r2 w cs cs' -> matches (Alt r1 r2) w cs cs'
| M_OptSome r w cs cs' : matches r w cs cs' -> matches (Opt r) w cs cs'
| M_OptNone r cs : matches (Opt r) [] cs cs
| M_Star p w cs : Forall (fun c => p c = true) w -> matches (Star p) w cs cs
| M_Rep p lo hi w cs :
    Forall (fun c => p c = true) w -> lo <= length w <= hi -> matches (Rep p lo hi) w cs cs
| M_Bol cs : matches Bol [] cs cs
| M_WordB cs : matches WordB [] cs cs
| M_Group i r w cs cs' : matches r w cs cs' -> matches (Group i r) w cs ((i, w) :: cs').

Lemma consumed_app (l w r r' : jsstring) (cs cs' : captures) :
  consumed (MState l r cs) (MState (rev w ++ l) r' cs') = w.
Proof.
  unfold consumed. simpl. rewrite length_app, Nat.add_sub.
  rewrite firstn_app, Nat.sub_diag, firstn_all. simpl.
  rewrite app_nil_r. apply rev_involutive.
Qed.

Lemma star_sound (p : ascii -> bool) (k : mstate -> option mstate) (r : jsstring) :
  forall l cs out, star p k l r cs = Some out ->
  exists w rest, Forall (fun c => p c = true) w /\ r = w ++ rest
                 /\ k (MState (rev w ++ l) rest cs) = Some out.
Proof.
  induction r as [|c r IH]; intros l cs out; simpl.
  - intros H. exists [], []. auto.
  - destruct (p c) eqn:E; [|intros H; exists [], (c :: r); auto].
    destruct (star p k (c :: l) r cs) as [o|] eqn:Es.
    + intros [= ->]. destruct (IH _ _ _ Es) as (w & rest & Hw & -> & Hk).
      exists (c :: w), rest. repeat split; [now constructor|].
      simpl. now rewrite <- app_assoc.
    + intros H. exists [], (c :: r). auto.
Qed.

Lemma rep_sound (p : ascii -> bool) (k : mstate -> option mstate) (hi : nat) :
  forall lo l r cs out, rep p k lo hi l r cs = Some out ->
  exists w rest, Forall (fun c => p c = true) w /\ lo <= length w <= hi /\ r = w ++ rest
                 /\ k (MState (rev w ++ l) rest cs) = Some out.
Proof.
  assert (Hstop : forall lo hi' l r cs out,
            (if (lo =? 0)%nat then k (MState l r cs) else None) = Some out ->
            exists w rest, Forall (fun c => p c = true) w /\ lo <= length w <= hi' /\ r = w ++ rest
                           /\ k (MState (rev w ++ l) rest cs) = Some out).
  { intros lo hi' l r cs out. destruct (Nat.eqb_spec lo 0); [|discriminate].
    intros H. exists [], r. simpl. repeat split; auto; lia. }
  induction hi as [|hi IH]; intros lo l r cs out; simpl; [apply Hstop|].
  destruct r as [|c r]; [apply Hstop|].
  destruct (p c) eqn:E; [|apply Hstop].
  destruct (rep p k (pred lo) hi (c :: l) r cs) as [o|] eqn:Er; [|apply Hstop].
  intros [= ->]. destruct (IH _ _ _ _ _ Er) as (w & rest & Hw & Hlen & -> & Hk).
  exists (c :: w), rest. repeat split; simpl; try lia; [now constructor|].
  now rewrite <- app_assoc.
Qed.

(** Soundness of the matcher: what [exec] reads has the shape of the regex,
    and the continuation was run right after it. *)
Lemma exec_sound (r : regex) :
  forall k st out, exec r k st = Some out ->
  exists w rest cs', matches r w (caps st) cs' /\ after st = w ++ rest
                     /\ k (MState (rev w ++ before st) rest cs') = Some out.
Proof.
  induction r as [|p|r1 IH1 r2 IH2|r1 IH1 r2 IH2|r1 IH1|p|p lo hi| | |i r1 IH1];
    intros k [l a cs] out; simpl.
  - intros H. exists [], a, cs. repeat split; [constructor|exact H].
  - destruct a as [|c a]; [discriminate|]. destruct (p c) eqn:E; [|discriminate].
    intros H. exists [c], a, cs. repeat split; [now constructor|exact H].
  - intros H. destruct (IH1 _ _ _ H) as (w1 & rest1 & cs1 & M1 & E1 & H1).
    destruct (IH2 _ _ _ H1) as (w2 & rest2 & cs2 & M2 & E2 & H2). simpl in *.
    exists (w1 ++ w2), rest2, cs2. repeat split.
    + econstructor; eassumption.
    + rewrite E1, E2. apply app_assoc.
    + now rewrite rev_app_distr, <- app_assoc.
  - destruct (exec r1 k (MState l a cs)) as [o|] eqn:E1.
    + intros [= ->]. destruct (IH1 _ _ _ E1) as (w & rest & cs' & M & E & H).
      exists w, rest, cs'. repeat split; auto. now apply M_AltL.
    + intros H2. destruct (IH2 _ _ _ H2) as (w & rest & cs' & M & E & H).
      exists w, rest, cs'. repeat split; auto. now apply M_AltR.
  - destruct (exec r1 k (MState l a cs)) as [o|] eqn:E1.
    + intros [= ->]. destruct (IH1 _ _ _ E1) as (w & rest & cs' & M & E & H).
      exists w, rest, cs'. repeat split; auto. now apply M_OptSome.
    + intros H. exists [], a, cs. repeat split; [apply M_OptNone|exact H].
  - intros H. destruct (star_sound _ _ _ _ _ H) as (w & rest & Hw & -> & Hk).
    exists w, rest, cs. repeat split; [now constructor|exact Hk].
  - intros H. destruct (rep_sound _ _ _ _ _ _ _ H) as (w & rest & Hw & Hlen & -> & Hk).
    exists w, rest, cs. repeat split; [now constructor|exact Hk].
  - destruct l; [|discriminate]. intros H. exists [], a, cs. repeat split; [constructor|exact H].
  - destruct (xorb _ _); [|discriminate].
    intros H. exists [], a, cs. repeat split; [constructor|exact H].
  - intros H. destruct (IH1 _ _ _ H) as (w & rest & cs' & M & E & Hk). simpl in *.
    rewrite (consumed_app l w a rest cs cs') in Hk.
    exists w, rest, ((i, w) :: cs'). repeat split; [now constructor|exact E|exact Hk].
Qed.

(** A match [m] found with [pre] on its left and [rest] on its right: the
    matcher went from the one position to the other, and [m[0]] has the shape
    of the regex. *)
Definition found (re : regex) (pre : jsstring) (m : rmatch) (rest : jsstring) : Prop :=
  index m = length pre
  /\ exec re Some (MState (rev pre) (whole m ++ rest) [])
     = Some (MState (rev (whole m) ++ rev pre) rest (groups m))
  /\ matches re (whole m) [] (groups m).

Lemma execAt_sound (re : regex) (l r : jsstring) (m : rmatch) :
  execAt re l r = Some m -> exists rest, r = whole m ++ rest /\ found re (rev l) m rest.
Proof.
  unfold execAt, found. destruct (exec re Some (MState l r [])) as [st'|] eqn:E; [|discriminate].
  intros [= <-]. simpl.
  destruct (exec_sound _ _ _ E) as (w & rest & cs' & M & Ea & [= <-]). simpl in *.
  rewrite (consumed_app l w r rest [] cs'). subst r.
  exists rest. rewrite length_rev, rev_involutive. auto.
Qed.

(** Every match of a scan is a piece of the text, found at its index. *)
Lemma scan_sound (re : regex) (r : jsstring) :
  forall l skip m, In m (scan re l r skip) ->
  exists pre rest, rev l ++ r = pre ++ whole m ++ rest /\ found re pre m rest.
Proof.
  assert (Hhere : forall l r m, execAt re l r = Some m ->
            exists pre rest, rev l ++ r = pre ++ whole m ++ rest /\ found re pre m rest).
  { intros l r0 m H. destruct (execAt_sound _ _ _ H) as (rest & -> & Hf).
    exists (rev l), rest. auto. }
  induction r as [|c r IH]; intros l skip m; simpl.
  - destruct skip; [|intros []].
    destruct (execAt re l []) as [m0|] eqn:E; [|intros []].
    intros [<-|[]]. now apply Hhere.
  - assert (Hrec : forall n, In m (scan re (c :: l) r n) ->
              exists pre rest, rev l ++ c :: r = pre ++ whole m ++ rest /\ found re pre m rest).
    { intros n Hin. destruct (IH _ _ _ Hin) as (pre & rest & E & Hf).
      exists pre, rest. split; [|exact Hf].
      simpl in E. now rewrite <- app_assoc in E. }
    destruct skip; [|apply Hrec].
    destruct (execAt re l (c :: r)) as [m0|] eqn:E; [|apply Hrec].
    intros [<-|Hin]; [now apply Hhere|eapply Hrec; eassumption].
Qed.

Lemma matchAll_sound (re : regex) (text : jsstring) (m : rmatch) :
  In m (matchAll re text) ->
  exists pre rest, text = pre ++ whole m ++ rest /\ found re pre m rest.
Proof. intros H. apply scan_sound in H. exact H. Qed.

(** *** A regex that ends in [c*] reads every [c] there is *)

Fixpoint endsInStar (p : ascii -> bool) (r : regex) : Prop :=
  match r with
  | Seq _ r2 => endsInStar p r2
  | Star q => q = p
  | _ => False
  end.

(** [s] does not start with a character of the class [p]. *)
Definition stopsAt (p : ascii -> bool) (s : jsstring) : Prop :=
  match s with
  | c :: _ => p c = false
  | [] => True
  end.

Lemma star_greedy (p : ascii -> bool) (r : jsstring) :
  forall l cs, exists out, star p Some l r cs = Some out /\ stopsAt p (after out).
Proof.
  induction r as [|c r IH]; intros l cs; simpl.
  - eexists. split; [reflexivity|exact I].
  - destruct (p c) eqn:E.
    + destruct (IH (c :: l) cs) as [out [-> Hout]]. eauto.
    + eexists. split; [reflexivity|exact E].
Qed.

Lemma exec_greedy_tail (p : ascii -> bool) (r : regex) :
  endsInStar p r -> forall st out, exec r Some st = Some out -> stopsAt p (after out).
Proof.
  induction r as [|q|r1 IH1 r2 IH2|r1 IH1 r2 IH2|r1 IH1|q|q lo hi| | |i r1 IH1];
    simpl; try contradiction.
  - intros He st out H. destruct (exec_sound _ _ _ H) as (w & rest & cs' & _ & _ & H2).
    eapply IH2; eassumption.
  - intros -> st out H. destruct (star_greedy p (after st) (before st) (caps st)) as [o [Ho Hs]].
    congruence.
Qed.

End RegexFacts.

(** ** The answer segmenter *)
Module QaFacts.
Import Regex RegexFacts ExtractQaPairs.

Definition allSpace (s : jsstring) : Prop := Forall (fun c => Chr.isSpace c = true) s.
Definition allDigit (s : jsstring) : Prop := Forall (fun c => Chr.isDigit c = true) s.

(** The optional word before the number: nothing, or [Q] or [Question] in
    either case, and the white space after it. *)
Definition questionWord (q : jsstring) : Prop :=
  q = [] \/
  exists c u ws, q = c :: u ++ ws /\ Chr.ci "Q"%char c = true
    /\ (u = [] \/ map Chr.fold u = str "UESTION") /\ allSpace ws.

(** The shape of a marker without the newline that may lead it: white space,
    the optional word, the digits [d], white space, one separator, white
    space. *)
Definition markerText (d m : jsstring) : Prop :=
  exists ws0 q ws1 sep ws2,
    m = ws0 ++ q ++ d ++ ws1 ++ sep :: ws2
    /\ allSpace ws0 /\ questionWord q
    /\ allDigit d /\ 1 <= length d <= 3
    /\ allSpace ws1 /\ Chr.oneOf ":.)-" sep = true /\ allSpace ws2.

Ltac inv_matches :=
  repeat match goal with
  | H : matches Empty _ _ _ |- _ => inversion H; subst; clear H
  | H : matches (Class _) _ _ _ |- _ => inversion H; subst; clear H
  | H : matches (Seq _ _) _ _ _ |- _ => inversion H; subst; clear H
  | H : matches (Alt _ _) _ _ _ |- _ => inversion H; subst; clear H
  | H : matches (Opt _) _ _ _ |- _ => inversion H; subst; clear H
  | H : matches (Star _) _ _ _ |- _ => inversion H; subst; clear H
  | H : matches (Rep _ _ _) _ _ _ |- _ => inversion H; subst; clear H
  | H : matches Bol _ _ _ |- _ => inversion H; subst; clear H
  | H : matches WordB _ _ _ |- _ => inversion H; subst; clear H
  | H : matches (Group _ _) _ _ _ |- _ => inversion H; subst; clear H
  end.

Lemma ci_fold (x c : ascii) : Chr.ci x c = true -> Chr.fold c = Chr.fold x.
Proof. unfold Chr.ci, Chr.eqb. intros H. apply Ascii.eqb_eq in H. congruence. Qed.

Lemma re_shape (w : jsstring) (cs : captures) :
  matches re w [] cs ->
  exists lead d m,
    w = lead ++ m /\ (lead = [] \/ lead = [Chr.LF])
    /\ capture cs 1 = Some lead /\ capture cs 2 = Some d /\ markerText d m.
Proof.
  intros H. cbv [re lit str list_ascii_of_string fold_right] in H.
  inv_matches.
  all: match goal with
       | |- exists lead d m, (?l ++ _) = _ /\ _ => exists l
       end.
  all: match goal with
       | H : Forall _ ?d, H' : 1 <= length ?d <= 3 |- _ => exists d
       end.
  all: eexists; split; [reflexivity|].
  all: split; [first [now left | right; f_equal;
                      match goal with H : Chr.eqb _ _ = true |- _ =>
                        apply Ascii.eqb_eq in H; now rewrite H end]|].
  all: split; [reflexivity|]; split; [reflexivity|].
  all: unfold markerText, allSpace, allDigit.
  all: match goal with
       | |- exists _ _ _ _ _, ?a ++ ?mid ++ ?d ++ ?b ++ [?c] ++ ?e = _ /\ _ =>
           exists a, mid, b, c, e
       end.
  all: split; [reflexivity|]; split; [assumption|]; split;
         [|repeat (split; [first [assumption | lia]|]); assumption].
  all: unfold questionWord;
       match goal with
       | |- [] = [] \/ _ => left; reflexivity
       | |- [?c] ++ ?u ++ ?ws = [] \/ _ => right; exists c, u, ws
       end.
  all: split; [reflexivity|]; split; [assumption|]; split; [|assumption].
  all: try (left; reflexivity); right; simpl.
  all: repeat match goal with
       | H : Chr.ci _ _ = true |- _ => apply ci_fold in H; rewrite H; clear H
       end.
  all: reflexivity.
Qed.

Lemma re_endsInStar : endsInStar Chr.isSpace re.
Proof. reflexivity. Qed.

(** A marker of [findMarkers], in the text: [pre] is what comes before it,
    [mt] the marker from [idx] on, [post] the rest. *)
Definition markerAt (text : jsstring) (m : Marker) (pre mt post : jsstring) : Prop :=
  text = pre ++ mt ++ post
  /\ idx m = length pre /\ markerLen m = length mt
  /\ markerText (qid m) mt
  /\ stopsAt Chr.isSpace post.

Lemma findMarkers_sound (text : jsstring) (m : Marker) :
  In m (findMarkers text) -> exists pre mt post, markerAt text m pre mt post.
Proof.
  unfold findMarkers. intros H. apply in_map_iff in H. destruct H as (rm & <- & Hin).
  apply matchAll_sound in Hin. destruct Hin as (pre & rest & Etext & Hidx & Hexec & Hm).
  apply re_shape in Hm. destruct Hm as (lead & d & mt & Ew & Hlead & Hc1 & Hc2 & Hmt).
  apply (exec_greedy_tail _ _ re_endsInStar) in Hexec. simpl in Hexec.
  exists (pre ++ lead), mt, rest. unfold markerAt, markerOf, group.
  rewrite Hc1, Hc2, Ew, Hidx. simpl. repeat split.
  - rewrite Etext, Ew. now rewrite <- !app_assoc.
  - now rewrite length_app.
  - rewrite length_app. lia.
  - exact Hmt.
  - exact Hexec.
Qed.

Lemma markerText_length (d mt : jsstring) : markerText d mt -> 2 <= length mt.
Proof.
  intros (ws0 & q & ws1 & sep & ws2 & -> & _ & _ & _ & Hlen & _).
  rewrite !length_app. simpl. lia.
Qed.

(** Every match of the pattern reads at least a digit and a separator, so
    the loop over [re.exec] moves on after each match. *)
Lemma matches_advance (text : jsstring) (rm : rmatch) :
  In rm (matchAll re text) -> 2 <= length (whole rm).
Proof.
  intros Hin. apply matchAll_sound in Hin. destruct Hin as (pre & rest & _ & _ & _ & Hm).
  apply re_shape in Hm. destruct Hm as (lead & d & mt & -> & _ & _ & _ & Hmt).
  apply markerText_length in Hmt. rewrite length_app. lia.
Qed.

Lemma marker_has_digit (text : jsstring) (m : Marker) :
  In m (findMarkers text) -> exists c, In c text /\ Chr.isDigit c = true.
Proof.
  intros H. destruct (findMarkers_sound _ _ H) as (pre & mt & post & -> & _ & _ & Hmt & _).
  destruct Hmt as (ws0 & q & ws1 & sep & ws2 & -> & _ & _ & Hd & Hlen & _).
  destruct (qid m) as [|c d]; [simpl in Hlen; lia|].
  exists c. split; [|now inversion Hd].
  rewrite !in_app_iff. right. left. right. right. left. now left.
Qed.

Lemma marker_qid_digits (text : jsstring) (m : Marker) :
  In m (findMarkers text) -> allDigit (qid m) /\ 1 <= length (qid m) <= 3.
Proof.
  intros H. destruct (findMarkers_sound _ _ H) as (pre & mt & post & _ & _ & _ & Hmt & _).
  destruct Hmt as (ws0 & q & ws1 & sep & ws2 & _ & _ & _ & Hd & Hlen & _). auto.
Qed.

Lemma dropWhile_In (p : ascii -> bool) (s : jsstring) (c : ascii) :
  In c (Js.dropWhile p s) -> In c s.
Proof.
  induction s as [|x s IH]; simpl; [tauto|].
  destruct (p x); [right; auto|tauto].
Qed.

Lemma trim_In (s : jsstring) (c : ascii) : In c (Js.trim s) -> In c s.
Proof.
  unfold Js.trim, Js.trimEnd, Js.trimStart. intros H.
  apply in_rev in H. apply dropWhile_In in H. apply in_rev in H.
  now apply dropWhile_In in H.
Qed.

Lemma replaceCRLF_In (s : jsstring) (c : ascii) :
  In c (Js.replaceCRLF s) -> c = Chr.LF \/ In c s.
Proof.
  assert (H : forall n t, length t <= n -> In c (Js.replaceCRLF t) -> c = Chr.LF \/ In c t).
  { induction n as [|n IH]; intros [|x [|d r]]; simpl; try tauto; try lia.
    intros Hlen. destruct (Chr.isCode 13 x && Chr.isCode 10 d).
    - intros [<-|H]; [now left|]. apply (IH r) in H; [tauto|lia].
    - intros [<-|H]; [tauto|]. apply (IH (d :: r)) in H; [simpl in H; tauto|simpl; lia]. }
  apply (H (length s)). lia.
Qed.

Lemma normalise_digit (raw : jsstring) (c : ascii) :
  In c (normalise raw) -> Chr.isDigit c = true -> In c raw.
Proof.
  unfold normalise. intros H Hd. apply trim_In in H. apply replaceCRLF_In in H.
  destruct H as [->|H]; [discriminate|exact H].
Qed.

(** *** The spans and their ids *)

Lemma spans_ids (text : jsstring) (ms : list Marker) :
  map questionId (spans text ms) = map qid ms.
Proof. induction ms as [|m r IH]; simpl; [reflexivity|]. now rewrite IH. Qed.

(** The span a question id has last in [pairs], as the specification puts
    it for repeated ids. *)
Definition lastWithId (pairs : list QaPair) (id : jsstring) : option QaPair :=
  find (fun p => Js.eqb (questionId p) id) (rev pairs).

Lemma find_app (A : Type) (f : A -> bool) (l1 l2 : list A) :
  find f (l1 ++ l2) = match find f l1 with Some x => Some x | None => find f l2 end.
Proof. induction l1 as [|x l1 IH]; simpl; [reflexivity|]. now destruct (f x). Qed.

Definition byIdStep (byId : Js.jsmap QaPair) (p : QaPair) : Js.jsmap QaPair :=
  Js.set byId (questionId p) p.

Lemma byId_get (l : list QaPair) :
  forall m id, Js.get (fold_left byIdStep l m) id =
               match lastWithId l id with Some p => Some p | None => Js.get m id end.
Proof.
  unfold lastWithId. induction l as [|x l IH]; intros m id; simpl; [reflexivity|].
  rewrite IH, find_app. destruct (find _ (rev l)); [reflexivity|].
  unfold byIdStep. rewrite JsFacts.get_set. simpl. now destruct (Js.eqb (questionId x) id).
Qed.

Definition wellKeyed (m : Js.jsmap QaPair) : Prop :=
  NoDup (Js.keys m) /\ forall k p, In (k, p) m -> k = questionId p.

Lemma byId_wellKeyed (l : list QaPair) :
  forall m, wellKeyed m -> wellKeyed (fold_left byIdStep l m).
Proof.
  induction l as [|x l IH]; intros m [Hnd Hk]; simpl; [now split|].
  apply IH. split.
  - now apply JsFacts.keys_set_NoDup.
  - intros k p Hin. apply JsFacts.In_set in Hin. destruct Hin as [[-> ->]|Hin]; auto.
Qed.

Lemma dedup_spec (pairs : list QaPair) :
  NoDup (map questionId (dedup pairs))
  /\ forall p, In p (dedup pairs) <-> lastWithId pairs (questionId p) = Some p.
Proof.
  unfold dedup. change (fun byId p => Js.set byId (questionId p) p) with byIdStep.
  destruct (@byId_wellKeyed pairs []) as [Hnd Hk].
  { split; [constructor|intros k p []]. }
  set (M := fold_left byIdStep pairs []) in *.
  assert (Hkeys : map questionId (Js.values M) = Js.keys M).
  { unfold Js.values, Js.keys. rewrite map_map. apply map_ext_in.
    intros [k p] Hin. simpl. symmetry. now apply Hk. }
  assert (Hget : forall id, Js.get M id = lastWithId pairs id).
  { intros id. unfold M. rewrite byId_get. now destruct (lastWithId pairs id). }
  split; [now rewrite Hkeys|].
  intros p. rewrite <- Hget. split.
  - intros Hin. unfold Js.values in Hin. apply in_map_iff in Hin.
    destruct Hin as ([k p'] & Ep & Hin). simpl in Ep. subst p'.
    rewrite <- (Hk _ _ Hin). now apply JsFacts.In_get.
  - intros Hg. apply JsFacts.get_In in Hg. unfold Js.values.
    change p with (snd (questionId p, p)). now apply in_map.
Qed.

(** [a <= b] on numbers that may be NaN. *)
Definition numLe (a b : option Z) : Prop :=
  match a, b with
  | Some x, Some y => (x <= y)%Z
  | _, _ => False
  end.

(** The order of the result: by the number the question id reads as. *)
Definition idLe (a b : QaPair) : Prop :=
  numLe (Js.Number (questionId a)) (Js.Number (questionId b)).

Definition idKey (p : QaPair) : Z :=
  match Js.Number (questionId p) with Some n => n | None => 0%Z end.

Lemma StronglySorted_weaken (A : Type) (R R' : A -> A -> Prop) (l : list A) :
  (forall a b, In a l -> In b l -> R a b -> R' a b) ->
  StronglySorted R l -> StronglySorted R' l.
Proof.
  intros H Hs. induction Hs as [|x r Hr IH Hx]; constructor.
  - apply IH. intros a b Ha Hb. apply H; now right.
  - apply Forall_forall. intros y Hy. apply H; [now left|now right|].
    now apply (proj1 (Forall_forall _ _) Hx).
Qed.

Lemma sort_by_number (l : list QaPair) :
  (forall p, In p l -> exists n, Js.Number (questionId p) = Some n) ->
  StronglySorted idLe (Js.sort byNumber l).
Proof.
  intros Hnum.
  rewrite (@JsFacts.sort_ext _ byNumber (fun a b => Some (idKey a - idKey b)%Z)).
  - apply StronglySorted_weaken with (R := JsFacts.keyLe idKey);
      [|now apply JsFacts.sort_sorted].
    intros a b Ha Hb. apply JsFacts.sort_In in Ha, Hb.
    destruct (Hnum a Ha) as [x Hx], (Hnum b Hb) as [y Hy].
    unfold JsFacts.keyLe, idLe, idKey. now rewrite Hx, Hy.
  - intros a b Ha Hb. destruct (Hnum a Ha) as [x Hx], (Hnum b Hb) as [y Hy].
    unfold byNumber, idKey. now rewrite Hx, Hy.
Qed.

Lemma lastWithId_In (pairs : list QaPair) (id : jsstring) (p : QaPair) :
  lastWithId pairs id = Some p -> In p pairs /\ questionId p = id.
Proof.
  unfold lastWithId. intros H. apply find_some in H. destruct H as [Hin E].
  apply JsFacts.eqb_eq in E. split; [now apply in_rev in Hin|exact E].
Qed.

Lemma spans_numeric (text : jsstring) (p : QaPair) :
  In p (spans text (findMarkers text)) -> exists n, Js.Number (questionId p) = Some n.
Proof.
  intros Hin. apply (in_map questionId) in Hin. rewrite spans_ids in Hin.
  apply in_map_iff in Hin. destruct Hin as (m & <- & Hm).
  apply JsFacts.Number_digits. now apply (marker_qid_digits _ _ Hm).
Qed.

Definition example3 : jsstring :=
  str "Q1: apple" ++ [Chr.LF] ++ str "Q2: banana" ++ [Chr.LF] ++ str "Q1: cherry".

(** C3. When a question id matches more than once, the result keeps the
    span of its last occurrence only, and the result is in the ascending
    order of the numbers the ids read as; on
    "Q1: apple\nQ2: banana\nQ1: cherry" it is id "1" with "cherry", then id
    "2" with "banana". *)
Theorem last_occurrence_wins_sorted (rawText : jsstring) :
  let pairs := spans (normalise rawText) (findMarkers (normalise rawText)) in
  let out := extractQaPairs rawText in
  StronglySorted idLe out
  /\ NoDup (map questionId out)
  /\ (pairs <> [] -> forall p, In p out <-> lastWithId pairs (questionId p) = Some p)
  /\ extractQaPairs example3
     = [mkQaPair (str "1") (str "cherry"); mkQaPair (str "2") (str "banana")].
Proof.
  cbv zeta. unfold extractQaPairs. cbv zeta.
  destruct (normalise rawText) as [|c t] eqn:Et.
  - split; [constructor|]. split; [constructor|].
    split; [intros H; exfalso; apply H; reflexivity|reflexivity].
  - set (text := c :: t) in *.
    destruct (findMarkers text) as [|m ms] eqn:Em.
    + split; [repeat constructor|]. split; [repeat constructor; intros []|].
      split; [intros H; exfalso; apply H; reflexivity|reflexivity].
    + rewrite <- Em. set (pairs := spans text (findMarkers text)).
      destruct (dedup_spec pairs) as [Hnd Hlast].
      assert (Hnum : forall p, In p (dedup pairs) -> exists n, Js.Number (questionId p) = Some n).
      { intros p Hp. apply Hlast in Hp. apply lastWithId_In in Hp.
        apply (spans_numeric text). tauto. }
      split; [now apply sort_by_number|].
      split; [|split; [|reflexivity]].
      * eapply Permutation_NoDup; [|exact Hnd].
        apply Permutation_map. apply JsFacts.sort_perm.
      * intros _ p. rewrite JsFacts.sort_In. apply Hlast.
Qed.

Lemma last_occurrence_wins_sorted_witness :
  In (mkQaPair (str "1") (str "cherry")) (extractQaPairs example3).
Proof.
  apply (proj1 (proj2 (proj2 (last_occurrence_wins_sorted example3)))).
  - vm_compute. discriminate.
  - reflexivity.
Defined.

(** C8 as worded: in a marker that is recognized, white space follows the
    separator. *)
Definition separatorThenSpace (text : jsstring) (m : Marker) : Prop :=
  exists front sep ws,
    Js.slice text (idx m) (idx m + markerLen m) = front ++ sep :: ws
    /\ Chr.oneOf ":.)-" sep = true
    /\ ws <> [] /\ allSpace ws.

(** In "Q2:answer" the marker is "Q2:": the letter "a" follows the colon. *)
Lemma separator_without_space_counterexample :
  findMarkers (str "Q2:answer") = [mkMarker 0 (str "2") 3]
  /\ extractQaPairs (str "Q2:answer") = [mkQaPair (str "2") (str "answer")]
  /\ ~ (forall text m, In m (findMarkers text) -> separatorThenSpace text m).
Proof.
  split; [reflexivity|]. split; [reflexivity|].
  intros H. destruct (H (str "Q2:answer") (mkMarker 0 (str "2") 3)) as (front & sep & ws & E & _ & Hne & Hws).
  { now left. }
  apply (f_equal (@rev ascii)) in E. rewrite rev_app_distr in E. simpl in E.
  destruct (rev ws) as [|c r] eqn:Er.
  - apply (f_equal (@rev ascii)) in Er. rewrite rev_involutive in Er. now apply Hne.
  - assert (Hc : Chr.isSpace c = true).
    { apply (proj1 (Forall_forall _ _) Hws). apply in_rev. rewrite Er. now left. }
    vm_compute in E. injection E as Ec _. subst c. vm_compute in Hc. discriminate.
Qed.

(** C8, amended. A marker is recognized only where one to three digits are
    followed, after optional white space, by one separator among [: . ) -];
    white space after the separator is optional: the white space that
    follows it, if any, is all part of the marker, and the separator may as
    well be followed by another character or by the end of the text. *)
Theorem marker_shape (text : jsstring) (m : Marker) :
  In m (findMarkers text) ->
  exists pre front ws1 sep ws2 post,
    text = pre ++ (front ++ qid m ++ ws1 ++ sep :: ws2) ++ post
    /\ idx m = length pre
    /\ markerLen m = length (front ++ qid m ++ ws1 ++ sep :: ws2)
    /\ allDigit (qid m) /\ 1 <= length (qid m) <= 3
    /\ allSpace ws1
    /\ Chr.oneOf ":.)-" sep = true
    /\ allSpace ws2
    /\ stopsAt Chr.isSpace post.
Proof.
  intros H. destruct (findMarkers_sound _ _ H) as (pre & mt & post & Et & Hi & Hl & Hmt & Hs).
  destruct Hmt as (ws0 & q & ws1 & sep & ws2 & Em & _ & _ & Hd & Hlen & H1 & Hsep & H2).
  exists pre, (ws0 ++ q), ws1, sep, ws2, post.
  rewrite <- (app_assoc ws0 q), <- Em. auto 10.
Qed.

Lemma marker_shape_witness :
  exists pre front ws1 sep ws2 post,
    str "Q2:answer" = pre ++ (front ++ str "2" ++ ws1 ++ sep :: ws2) ++ post
    /\ 0 = length pre
    /\ 3 = length (front ++ str "2" ++ ws1 ++ sep :: ws2)
    /\ allDigit (str "2") /\ 1 <= length (str "2") <= 3
    /\ allSpace ws1
    /\ Chr.oneOf ":.)-" sep = true
    /\ allSpace ws2
    /\ stopsAt Chr.isSpace post.
Proof.
  apply (@marker_shape (str "Q2:answer") (mkMarker 0 (str "2") 3)).
  vm_compute. now left.
Defined.

(** C9. [extractQaPairs] gives a result on every string: its scan ends
    because every match reads at least two characters.  When the trimmed
    text is empty the result is empty; when the text has no marker (as when
    it has no digit) the result is the one span of id "1" with the whole
    trimmed text. *)
Theorem fallbacks_without_markers (rawText : jsstring) :
  (exists out, extractQaPairs rawText = out)
  /\ (forall rm, In rm (matchAll re (normalise rawText)) -> 2 <= length (whole rm))
  /\ (normalise rawText = [] -> extractQaPairs rawText = [])
  /\ (normalise rawText <> [] -> findMarkers (normalise rawText) = [] ->
      extractQaPairs rawText = [mkQaPair (str "1") (normalise rawText)])
  /\ (normalise rawText <> [] -> forallb (fun c => negb (Chr.isDigit c)) rawText = true ->
      extractQaPairs rawText = [mkQaPair (str "1") (normalise rawText)])
  /\ extractQaPairs (str "") = []
  /\ extractQaPairs (str "just some text") = [mkQaPair (str "1") (str "just some text")].
Proof.
  assert (Hnone : normalise rawText <> [] -> findMarkers (normalise rawText) = [] ->
                  extractQaPairs rawText = [mkQaPair (str "1") (normalise rawText)]).
  { unfold extractQaPairs. cbv zeta. destruct (normalise rawText); [congruence|].
    now intros _ ->. }
  split; [eauto|]. split; [apply matches_advance|].
  split; [unfold extractQaPairs; now intros ->|].
  split; [exact Hnone|]. split; [|split; reflexivity].
  intros Hne Hnd. apply Hnone; [exact Hne|].
  destruct (findMarkers (normalise rawText)) as [|m ms] eqn:Em; [reflexivity|].
  destruct (@marker_has_digit (normalise rawText) m) as [c [Hc Hd]].
  { rewrite Em. now left. }
  apply normalise_digit in Hc; [|exact Hd].
  rewrite forallb_forall in Hnd. specialize (Hnd c Hc). now rewrite Hd in Hnd.
Qed.

Lemma fallbacks_without_markers_witness :
  extractQaPairs (str "  no marker: here  ")
  = [mkQaPair (str "1") (normalise (str "  no marker: here  "))].
Proof.
  apply (proj1 (proj2 (proj2 (proj2 (proj2 (fallbacks_without_markers (str "  no marker: here  "))))))).
  - vm_compute. discriminate.
  - reflexivity.
Defined.

End QaFacts.

(** ** The score extractor *)
Module ScoreFacts.
Import Regex ExtractScore.

(** The score of a candidate as the specification words it: its [outOf]
    value, 1000 more when [outOf] is the expected total, 5 more when the raw
    text has a slash. *)
Definition specScore (expectedOutOf : option Z) (c : Candidate) : Z :=
  (match c_outOf c with Some t => t | None => 0 end
   + (match expectedOutOf, c_outOf c with
      | Some e, Some t => if (t =? e)%Z then 1000 else 0
      | _, _ => 0
      end)
   + (if hasSlash (c_raw c) then 5 else 0))%Z.

(** [w] is the earliest element of [l] with the largest value of [f]. *)
Definition firstMax (A : Type) (f : A -> Z) (l : list A) (w : A) : Prop :=
  exists pre post, l = pre ++ w :: post
    /\ (forall c, In c pre -> (f c < f w)%Z)
    /\ (forall c, In c post -> (f c <= f w)%Z).

Definition descending (A : Type) (f : A -> Z) (a b : A) : option Z := Some (f b - f a)%Z.

Lemma sort_descending_head (A : Type) (f : A -> Z) (l : list A) :
  l <> [] -> exists w, hd_error (Js.sort (descending f) l) = Some w /\ firstMax f l w.
Proof.
  induction l as [|x r IH]; [congruence|intros _].
  destruct r as [|y r'].
  - exists x. split; [reflexivity|]. exists [], []. repeat split; intros c [].
  - destruct IH as [w [Hhd (pre & post & Hl & Hpre & Hpost)]]; [congruence|].
    change (Js.sort (descending f) (x :: y :: r'))
      with (Js.insert (descending f) x (Js.sort (descending f) (y :: r'))).
    destruct (Js.sort (descending f) (y :: r')) as [|h t]; [discriminate|].
    simpl in Hhd. injection Hhd as ->.
    simpl. unfold Js.notAfter, descending.
    destruct (Z.leb_spec (f w - f x) 0).
    + exists x. split; [reflexivity|]. exists [], (y :: r'). repeat split.
      * intros c [].
      * intros c Hc. rewrite Hl in Hc. apply in_app_or in Hc.
        destruct Hc as [Hc|[<-|Hc]]; [specialize (Hpre c Hc)|..|specialize (Hpost c Hc)]; lia.
    + exists w. split; [reflexivity|]. exists (x :: pre), post. repeat split.
      * rewrite Hl. reflexivity.
      * intros c [<-|Hc]; [lia|auto].
      * assumption.
Qed.

Lemma scored_is_specScore (e : option Z) (c : Candidate) :
  (let score := 0%Z in
   let score := match c_outOf c with Some t => (score + t)%Z | None => score end in
   let score :=
     match e with
     | Some e' => if optZeqb (c_outOf c) (Some e') then (score + 1000)%Z else score
     | None => score
     end in
   if hasSlash (c_raw c) then (score + 5)%Z else score) = specScore e c.
Proof.
  unfold specScore. cbv zeta.
  destruct (c_outOf c) as [t|], e as [e'|], (hasSlash (c_raw c)); simpl;
    try destruct (t =? e')%Z; lia.
Qed.

Lemma firstMax_map (A B : Type) (g : A -> B) (f : B -> Z) (l : list A) (w : B) :
  firstMax f (map g l) w -> exists a, w = g a /\ firstMax (fun x => f (g x)) l a.
Proof.
  intros (pre & post & Hl & Hpre & Hpost).
  apply map_eq_app in Hl. destruct Hl as (l1 & l2 & -> & <- & Hl2).
  apply map_eq_cons in Hl2. destruct Hl2 as (a & l3 & -> & <- & <-).
  exists a. split; [reflexivity|]. exists l1, l3. repeat split.
  - intros c Hc. apply Hpre. now apply in_map.
  - intros c Hc. apply Hpost. now apply in_map.
Qed.

Lemma pickBestPair_firstMax (cs : list Candidate) (e : option Z) :
  cs <> [] -> exists w, pickBestPair cs e = Some w /\ firstMax (specScore e) cs w.
Proof.
  intros Hne. unfold pickBestPair. destruct cs as [|c0 cs']; [congruence|].
  set (cs := c0 :: cs') in *.
  set (scored := map _ cs).
  assert (Hscored : scored = map (fun c => (c, specScore e c)) cs).
  { unfold scored. apply map_ext. intros c. f_equal. apply scored_is_specScore. }
  rewrite Hscored.
  destruct (@sort_descending_head _ (@snd Candidate Z) (map (fun c => (c, specScore e c)) cs))
    as [w [Hhd Hmax]].
  { subst cs. discriminate. }
  change (fun a b : Candidate * Z => Some (snd b - snd a)%Z) with (descending (@snd Candidate Z)).
  rewrite Hhd. simpl.
  apply firstMax_map in Hmax. destruct Hmax as (a & -> & Hmax).
  exists a. split; [reflexivity|exact Hmax].
Qed.

Lemma In_filterMap (A B : Type) (f : A -> option B) (l : list A) (y : B) :
  In y (filterMap f l) -> exists x, In x l /\ f x = Some y.
Proof.
  induction l as [|x r IH]; simpl; [intros []|].
  destruct (f x) as [y'|] eqn:E.
  - intros [<-|H]; [exists x; auto|]. destruct (IH H) as [x' [? ?]]. exists x'; auto.
  - intros H. destruct (IH H) as [x' [? ?]]. exists x'; auto.
Qed.

(** A candidate of the two scans has a positive total and a score from 0 to
    the total. *)
Lemma pairCandidates_valid (text : jsstring) (c : Candidate) :
  In c (pairCandidates text) ->
  exists t, c_outOf c = Some t /\ (0 < t)%Z /\ (0 <= c_obtained c <= t)%Z.
Proof.
  assert (H : forall m, pairCandidate m = Some c ->
            exists t, c_outOf c = Some t /\ (0 < t)%Z /\ (0 <= c_obtained c <= t)%Z).
  { intros m. unfold pairCandidate.
    destruct (groupNumber m 1) as [o|]; [|discriminate].
    destruct (groupNumber m 2) as [t|]; [|discriminate].
    destruct (Z.leb_spec t 0); [discriminate|].
    destruct (Z.ltb_spec o 0); [discriminate|].
    destruct (Z.gtb_spec o t); [discriminate|].
    simpl. intros [= <-]. exists t. simpl. repeat split; lia. }
  unfold pairCandidates. intros Hin. apply in_app_or in Hin.
  destruct Hin as [Hin|Hin]; apply In_filterMap in Hin; destruct Hin as [m [_ Hm]]; eauto.
Qed.

Lemma firstMax_In (A : Type) (f : A -> Z) (l : list A) (w : A) : firstMax f l w -> In w l.
Proof. intros (pre & post & -> & _). apply in_or_app. right. now left. Qed.

(** C4. Among the candidates of the fraction and "out of" scans the
    extractor takes the one with the largest score (its [outOf], plus 1000
    when [outOf] is the expected total, plus 5 when its raw text has a slash),
    the earliest of them on a tie; the result then has the method "fraction"
    exactly when the raw text of the winner has a slash, "out_of" otherwise,
    and the confidence 0.95 when the winner's [outOf] equals a supplied
    [expectedOutOf], 0.85 otherwise. *)
Theorem best_pair_selection (text : jsstring) (expectedOutOf : option Z)
    (labelHint : option jsstring) :
  pairCandidates (normalize text) <> [] ->
  exists w,
    firstMax (specScore expectedOutOf) (pairCandidates (normalize text)) w
    /\ pickBestPair (pairCandidates (normalize text)) expectedOutOf = Some w
    /\ let r := extractScoreFromText text expectedOutOf labelHint in
       obtained r = Some (c_obtained w)
       /\ outOf r = c_outOf w
       /\ (method r = fraction <-> hasSlash (c_raw w) = true)
       /\ (method r = out_of <-> hasSlash (c_raw w) = false)
       /\ ((exists e, expectedOutOf = Some e /\ c_outOf w = Some e) -> confidence r = 0.95%Q)
       /\ (~ (exists e, expectedOutOf = Some e /\ c_outOf w = Some e) -> confidence r = 0.85%Q).
Proof.
  intros Hne.
  destruct (pickBestPair_firstMax expectedOutOf Hne) as [w [Hpick Hmax]].
  exists w. split; [exact Hmax|]. split; [exact Hpick|].
  destruct (pairCandidates_valid _ _ (firstMax_In Hmax)) as [t [Ht [Hpos _]]].
  unfold extractScoreFromText. rewrite Hpick. cbv zeta. simpl.
  split; [reflexivity|]. split; [reflexivity|].
  split; [destruct (hasSlash (c_raw w)); split; congruence|].
  split; [destruct (hasSlash (c_raw w)); split; congruence|].
  split.
  - intros [e [-> He]]. rewrite Ht in He. injection He as <-.
    rewrite Ht. simpl. rewrite Z.eqb_refl.
    destruct (Z.eqb_spec t 0); [lia|reflexivity].
  - intros Hno. rewrite Ht. destruct expectedOutOf as [e|]; simpl.
    + destruct (Z.eqb_spec t e) as [->|]; [|now rewrite andb_false_r].
      exfalso. apply Hno. exists e. rewrite Ht. auto.
    + reflexivity.
Qed.

Lemma best_pair_selection_witness :
  exists w,
    firstMax (specScore (Some 30%Z))
      (pairCandidates (normalize (str "Scored 23/30 on the test, 7 out of 10 in part A"))) w
    /\ pickBestPair (pairCandidates (normalize (str "Scored 23/30 on the test, 7 out of 10 in part A")))
         (Some 30%Z) = Some w
    /\ let r := extractScoreFromText (str "Scored 23/30 on the test, 7 out of 10 in part A")
                  (Some 30%Z) None in
       obtained r = Some (c_obtained w)
       /\ outOf r = c_outOf w
       /\ (method r = fraction <-> hasSlash (c_raw w) = true)
       /\ (method r = out_of <-> hasSlash (c_raw w) = false)
       /\ ((exists e, Some 30%Z = Some e /\ c_outOf w = Some e) -> confidence r = 0.95%Q)
       /\ (~ (exists e, Some 30%Z = Some e /\ c_outOf w = Some e) -> confidence r = 0.85%Q).
Proof.
  apply (@best_pair_selection (str "Scored 23/30 on the test, 7 out of 10 in part A")
           (Some 30%Z) None).
  vm_compute. discriminate.
Defined.

(** The content of [candidates] as C5 words it: the candidates of the two
    scans, one more entry exactly when the label strategy gave the result,
    and nothing else. *)
Definition scansPlusLabelOnly (text : jsstring) (expectedOutOf : option Z)
    (labelHint : option jsstring) : Prop :=
  let r := extractScoreFromText text expectedOutOf labelHint in
  exists extra,
    candidates r = pairCandidates (normalize text) ++ extra
    /\ (method r = label -> exists c, extra = [c])
    /\ (method r <> label -> extra = []).

(** What the result holds besides the candidates of the two scans. *)
Definition derivedEntry (labelHint : option jsstring) (r : ExtractedScore) : list Candidate :=
  match method r, obtained r with
  | label, Some o => [mkCandidate o (outOf r) (labelOf labelHint ++ str ": " ++ Js.ofZ o)]
  | fallback, Some o => [mkCandidate o (outOf r) (Js.ofZ o)]
  | _, _ => []
  end.

(** On the text "7" with no expected total the last strategy answers, and
    [candidates] holds its entry: C5 as worded fails there. *)
Lemma candidates_fallback_counterexample :
  candidates (extractScoreFromText (str "7") None None) = [mkCandidate 7 None (str "7")]
  /\ method (extractScoreFromText (str "7") None None) = fallback
  /\ pairCandidates (normalize (str "7")) = []
  /\ ~ scansPlusLabelOnly (str "7") None None.
Proof.
  split; [reflexivity|]. split; [reflexivity|]. split; [reflexivity|].
  intros (extra & Hc & _ & Hno).
  rewrite Hno in Hc; [|discriminate].
  vm_compute in Hc. discriminate.
Qed.

Lemma pickBestPair_none (cs : list Candidate) (e : option Z) :
  pickBestPair cs e = None -> cs = [].
Proof.
  destruct cs as [|c cs']; [reflexivity|]. intros H.
  destruct (@pickBestPair_firstMax (c :: cs') e) as [w [Hw _]]; congruence.
Qed.

Ltac by_method :=
  first [ reflexivity
        | discriminate
        | intros [?|?]; discriminate
        | intros _; first [reflexivity | eexists; reflexivity] ].

(** C5, amended. [candidates] holds the candidates of the fraction and
    "out of" scans, in the order found, followed by one entry for the number the
    label strategy or the last strategy took, when one of them gave the result;
    the scans found nothing in those two cases. *)
Theorem candidates_content (text : jsstring) (expectedOutOf : option Z)
    (labelHint : option jsstring) :
  let r := extractScoreFromText text expectedOutOf labelHint in
  candidates r = pairCandidates (normalize text) ++ derivedEntry labelHint r
  /\ (method r = fraction \/ method r = out_of -> derivedEntry labelHint r = [])
  /\ (method r = label -> exists c, derivedEntry labelHint r = [c])
  /\ (method r = label \/ method r = fallback -> pairCandidates (normalize text) = []).
Proof.
  unfold extractScoreFromText. cbv zeta.
  destruct (pickBestPair (pairCandidates (normalize text)) expectedOutOf) as [w|] eqn:Hpick.
  - unfold derivedEntry. simpl.
    destruct (hasSlash (c_raw w)); rewrite app_nil_r; repeat apply conj; by_method.
  - apply pickBestPair_none in Hpick. rewrite Hpick.
    destruct expectedOutOf as [e|];
      [destruct (findNearLabelNumber (normalize text) (labelOf labelHint) e) as [o|]|];
      [|destruct (plausibleNumbers (normalize text)) as [|o ns]..];
      unfold derivedEntry; simpl; repeat apply conj; by_method.
Qed.

Lemma candidates_content_witness :
  pairCandidates (normalize (str "marks: 17")) = [].
Proof.
  apply (@candidates_content (str "marks: 17") (Some 20%Z) None).
  left. reflexivity.
Defined.

(** C10. The confidence of a result is 0, 0.25, 0.65, 0.85 or 0.95, hence
    from 0 to 1; each of the five occurs. *)
Theorem confidence_five_values :
  (forall (text : jsstring) (expectedOutOf : option Z) (labelHint : option jsstring),
     let c := confidence (extractScoreFromText text expectedOutOf labelHint) in
     (c = 0%Q \/ c = 0.25%Q \/ c = 0.65%Q \/ c = 0.85%Q \/ c = 0.95%Q)
     /\ (0 <= c)%Q /\ (c <= 1)%Q)
  /\ confidence (extractScoreFromText (str "no numbers here") None None) = 0%Q
  /\ confidence (extractScoreFromText (str "page 7") None None) = 0.25%Q
  /\ confidence (extractScoreFromText (str "marks: 17") (Some 20%Z) None) = 0.65%Q
  /\ confidence (extractScoreFromText (str "Scored 23/30") None None) = 0.85%Q
  /\ confidence (extractScoreFromText (str "Scored 23/30") (Some 30%Z) None) = 0.95%Q.
Proof.
  split; [|repeat split; reflexivity].
  intros text e l c.
  assert (H : c = 0%Q \/ c = 0.25%Q \/ c = 0.65%Q \/ c = 0.85%Q \/ c = 0.95%Q).
  { subst c. unfold extractScoreFromText. cbv zeta.
    destruct (pickBestPair _ e) as [w|].
    - simpl. destruct (_ && _); auto.
    - destruct e as [e|].
      + destruct (findNearLabelNumber _ _ e); simpl; auto.
        destruct (plausibleNumbers _); simpl; auto.
      + destruct (plausibleNumbers _); simpl; auto. }
  split; [exact H|].
  destruct H as [->|[->|[->|[->| ->]]]]; split; unfold Qle; simpl; lia.
Qed.

End ScoreFacts.

(** ** The heuristic grader *)
Module GradingFacts.
Import ExtractQaPairs GradingHeuristic.

(** *** Term frequencies *)

(** How often [k] occurs among the tokens [l]. *)
Definition countOf (k : jsstring) (l : list jsstring) : nat := length (filter (Js.eqb k) l).

Definition bump (m : Js.jsmap nat) (t : jsstring) : Js.jsmap nat :=
  Js.set m t (getOr0 m t + 1).

Lemma getOr0_bump (m : Js.jsmap nat) (t k : jsstring) :
  getOr0 (bump m t) k = getOr0 m k + (if Js.eqb k t then 1 else 0).
Proof.
  unfold getOr0, bump. rewrite JsFacts.get_set, (JsFacts.eqb_sym k t).
  destruct (Js.eqb t k) eqn:E; [|lia].
  apply JsFacts.eqb_eq in E. now subst.
Qed.

Lemma getOr0_fold (l : list jsstring) :
  forall m k, getOr0 (fold_left bump l m) k = getOr0 m k + countOf k l.
Proof.
  unfold countOf. induction l as [|t l IH]; intros m k; simpl; [lia|].
  rewrite IH, getOr0_bump. destruct (Js.eqb k t); simpl; lia.
Qed.

Lemma getOr0_termFreq (l : list jsstring) (k : jsstring) :
  getOr0 (termFreq l) k = countOf k l.
Proof. unfold termFreq. fold bump. now rewrite getOr0_fold. Qed.











(** The dot product of the source, over the entries of the first map. *)
Definition dot (ta tb : list jsstring) : nat :=
  fold_left (fun acc e => acc + snd e * getOr0 (termFreq tb) (fst e)) (termFreq ta) 0.


Local Open Scope R_scope.





(** *** The questions of an evaluation *)

Lemma keys_fold_set (V : Type) (es : list (jsstring * V)) :
  forall (m : Js.jsmap V) k,
    In k (Js.keys (fold_left (fun m e => Js.set m (fst e) (snd e)) es m))
    <-> In k (map fst es) \/ In k (Js.keys m).
Proof.
  induction es as [|[k0 v0] es IH]; intros m k; simpl; [tauto|].
  rewrite IH, JsFacts.keys_set_In. intuition congruence.
Qed.

Lemma keys_ofEntries (qa : list QaPair) (k : jsstring) :
  In k (Js.keys (Js.ofEntries (entries qa))) <-> In k (map questionId qa).
Proof.
  unfold Js.ofEntries. rewrite keys_fold_set. unfold entries. rewrite map_map. simpl. tauto.
Qed.

Lemma gradeQuestion_id (mm sm : Js.jsmap jsstring) (mx : R) (id : jsstring) :
  q_questionId (gradeQuestion mm sm mx id) = id.
Proof.
  unfold gradeQuestion. cbv zeta.
  destruct (isEmpty (textOf sm id)); [reflexivity|].
  destruct (isEmpty (textOf mm id)); reflexivity.
Qed.





(** The ids of the questions of an evaluation, in their order. *)
Lemma questions_ids (modelQa studentQa : list QaPair) (mx : R) :
  map q_questionId (questions (gradeSubmissionHeuristic modelQa studentQa mx))
  = Js.sort byNumericId
      (Js.setOf (Js.keys (Js.ofEntries (entries modelQa))
                 ++ Js.keys (Js.ofEntries (entries studentQa)))).
Proof.
  unfold gradeSubmissionHeuristic. cbv zeta. simpl.
  rewrite map_map. rewrite (map_ext _ (fun id => id)) by (intros; apply gradeQuestion_id).
  apply map_id.
Qed.











End GradingFacts.

(** ** The worked examples of the specification *)
Module SpecExamples.
Import ExtractScore ExtractQaPairs.

Example score_fraction :
  extractScoreFromText (str "Scored 23/30 on the test") None None
  = mkExtractedScore (Some 23%Z) (Some 30%Z) 0.85%Q fraction
      [mkCandidate 23 (Some 30%Z) (str "23/30")].
Proof. reflexivity. Qed.

Example score_fraction_expected :
  extractScoreFromText (str "Scored 23/30 on the test") (Some 30%Z) None
  = mkExtractedScore (Some 23%Z) (Some 30%Z) 0.95%Q fraction
      [mkCandidate 23 (Some 30%Z) (str "23/30")].
Proof. reflexivity. Qed.

Example score_label :
  extractScoreFromText (str "marks: 17") (Some 20%Z) (Some (str "marks"))
  = mkExtractedScore (Some 17%Z) (Some 20%Z) 0.65%Q label
      [mkCandidate 17 (Some 20%Z) (str "marks: 17")].
Proof. reflexivity. Qed.

Example score_nothing :
  extractScoreFromText (str "no numbers here") None None
  = mkExtractedScore None None 0%Q fallback [].
Proof. reflexivity. Qed.

(** A newline eaten by the white space that ends a marker no longer starts
    the next one. *)
Example marker_after_empty_answer :
  extractQaPairs (str "1." ++ [Chr.LF] ++ str "2. foo") = [mkQaPair (str "1") (str "2. foo")].
Proof. reflexivity. Qed.

(** Ids that read as the same number keep the order of their first
    occurrence. *)
Example ids_by_number :
  map questionId
    (extractQaPairs (str "Q10: a" ++ [Chr.LF] ++ str "Q 007 - b" ++ [Chr.LF]
                     ++ str "QUESTION7) c" ++ [Chr.LF] ++ str "2. d"))
  = [str "2"; str "007"; str "7"; str "10"].
Proof. reflexivity. Qed.

End SpecExamples.

(** * Further properties of the three services *)

(** ** Trimming, slicing and lower case *)
Module TextFacts.
Import RegexFacts.

Lemma dropWhile_split (p : ascii -> bool) (s : jsstring) :
  exists pre, s = pre ++ Js.dropWhile p s /\ Forall (fun c => p c = true) pre.
Proof.
  induction s as [|c s IH]; simpl; [exists []; auto|].
  destruct (p c) eqn:E; [|exists []; auto].
  destruct IH as (pre & Hs & Hp). exists (c :: pre). split; [simpl; congruence|auto].
Qed.

Lemma dropWhile_stops (p : ascii -> bool) (s : jsstring) : stopsAt p (Js.dropWhile p s).
Proof.
  induction s as [|c s IH]; simpl; [exact I|].
  destruct (p c) eqn:E; [exact IH|exact E].
Qed.

Lemma dropWhile_id (p : ascii -> bool) (s : jsstring) : stopsAt p s -> Js.dropWhile p s = s.
Proof. destruct s as [|c s]; simpl; [reflexivity|]. now intros ->. Qed.

(** A string with no white space at either end. *)
Definition trimmed (s : jsstring) : Prop :=
  stopsAt Chr.isSpace s /\ stopsAt Chr.isSpace (rev s).

Lemma trimEnd_keeps_start (x : jsstring) :
  stopsAt Chr.isSpace x -> trimmed (Js.trimEnd x).
Proof.
  intros Hx. unfold Js.trimEnd, trimmed. rewrite rev_involutive.
  split; [|apply dropWhile_stops].
  destruct (dropWhile_split Chr.isSpace (rev x)) as (pre & Hr & Hp).
  apply (f_equal (@rev ascii)) in Hr. rewrite rev_involutive, rev_app_distr in Hr.
  destruct (rev (Js.dropWhile Chr.isSpace (rev x))) as [|c y]; [exact I|].
  rewrite Hr in Hx. exact Hx.
Qed.

Lemma trim_trimmed (s : jsstring) : trimmed (Js.trim s).
Proof. apply trimEnd_keeps_start. apply dropWhile_stops. Qed.

Lemma trimmed_trim (s : jsstring) : trimmed s -> Js.trim s = s.
Proof.
  intros [H1 H2]. unfold Js.trim, Js.trimStart, Js.trimEnd.
  rewrite (dropWhile_id _ _ H1), (dropWhile_id _ _ H2). apply rev_involutive.
Qed.

Lemma trim_idempotent (s : jsstring) : Js.trim (Js.trim s) = Js.trim s.
Proof. apply trimmed_trim, trim_trimmed. Qed.

(** [trim] removes white space only, and only at the two ends. *)
Lemma trim_piece (s : jsstring) :
  exists a b, s = a ++ Js.trim s ++ b
    /\ Forall (fun c => Chr.isSpace c = true) a /\ Forall (fun c => Chr.isSpace c = true) b.
Proof.
  unfold Js.trim, Js.trimStart, Js.trimEnd.
  destruct (dropWhile_split Chr.isSpace s) as (a & Hs & Ha).
  destruct (dropWhile_split Chr.isSpace (rev (Js.dropWhile Chr.isSpace s))) as (b & Hr & Hb).
  apply (f_equal (@rev ascii)) in Hr. rewrite rev_involutive, rev_app_distr in Hr.
  exists a, (rev b). split; [|split; [exact Ha|]].
  - rewrite <- Hr. exact Hs.
  - apply Forall_forall. intros c Hc. apply in_rev in Hc.
    now apply (proj1 (Forall_forall _ _) Hb).
Qed.

Lemma slice_piece (s : jsstring) (i j : nat) : exists a b, s = a ++ Js.slice s i j ++ b.
Proof.
  unfold Js.slice. exists (firstn i s), (skipn (j - i) (skipn i s)).
  now rewrite firstn_skipn, firstn_skipn.
Qed.

Lemma toLower_idempotent (c : ascii) : Chr.toLower (Chr.toLower c) = Chr.toLower c.
Proof. destruct c as [[] [] [] [] [] [] [] []]; reflexivity. Qed.

Lemma toLowerCase_idempotent (s : jsstring) :
  Js.toLowerCase (Js.toLowerCase s) = Js.toLowerCase s.
Proof.
  unfold Js.toLowerCase. rewrite map_map. apply map_ext. apply toLower_idempotent.
Qed.

Lemma toLower_digit (c : ascii) : Chr.isDigit (Chr.toLower c) = Chr.isDigit c.
Proof. destruct c as [[] [] [] [] [] [] [] []]; reflexivity. Qed.

Lemma digitVal_range (c : ascii) : Chr.isDigit c = true -> (0 <= Js.digitVal c <= 9)%Z.
Proof.
  unfold Chr.isDigit, Chr.inRange, Js.digitVal. intros H.
  apply andb_true_iff in H. destruct H as [H1 H2].
  apply Nat.leb_le in H1. apply Nat.leb_le in H2. lia.
Qed.

(** One to three digits read as a number from 0 to 999. *)
Lemma Number_three_digits (d : jsstring) :
  Forall (fun c => Chr.isDigit c = true) d -> length d <= 3 ->
  exists n, Js.Number d = Some n /\ (0 <= n <= 999)%Z.
Proof.
  intros Hd Hlen. unfold Js.Number. rewrite (JsFacts.trim_digits Hd).
  rewrite (proj2 (forallb_forall _ _) (proj1 (Forall_forall _ _) Hd)).
  eexists. split; [reflexivity|].
  destruct d as [|a [|b [|c [|e d]]]]; cbn [fold_left length] in *; try lia.
  - inversion Hd; subst. pose proof (digitVal_range _ H1). lia.
  - inversion Hd as [|? ? Ha Hd']; subst. inversion Hd' as [|? ? Hb _]; subst.
    pose proof (digitVal_range _ Ha). pose proof (digitVal_range _ Hb). lia.
  - inversion Hd as [|? ? Ha Hd']; subst. inversion Hd' as [|? ? Hb Hd'']; subst.
    inversion Hd'' as [|? ? Hc _]; subst.
    pose proof (digitVal_range _ Ha). pose proof (digitVal_range _ Hb).
    pose proof (digitVal_range _ Hc). lia.
Qed.

End TextFacts.

(** ** The order of the matches of a scan *)
Module ScanFacts.
Import Regex RegexFacts.

Lemma execAt_index (re : regex) (l r : jsstring) (m : rmatch) :
  execAt re l r = Some m -> index m = length l.
Proof.
  unfold execAt. destruct (exec re Some (MState l r [])); [|discriminate].
  now intros [= <-].
Qed.

Lemma scan_index_ge (re : regex) (r : jsstring) :
  forall l skip m, In m (scan re l r skip) -> length l + skip <= index m.
Proof.
  induction r as [|c r IH]; intros l skip m; simpl.
  - destruct skip; [|intros []].
    destruct (execAt re l []) as [m0|] eqn:E; [|intros []].
    intros [<-|[]]. rewrite (execAt_index _ _ _ E). lia.
  - destruct skip as [|skip].
    + destruct (execAt re l (c :: r)) as [m0|] eqn:E.
      * intros [<-|Hin]; [rewrite (execAt_index _ _ _ E); lia|].
        apply IH in Hin. simpl in Hin. lia.
      * intros Hin. apply IH in Hin. simpl in Hin. lia.
    + intros Hin. apply IH in Hin. simpl in Hin. lia.
Qed.

(** [b] starts where [a] ends, or later. *)
Definition precedes (a b : rmatch) : Prop := index a + length (whole a) <= index b.

Lemma scan_ordered (re : regex) (r : jsstring) :
  forall l skip, StronglySorted precedes (scan re l r skip).
Proof.
  induction r as [|c r IH]; intros l skip; simpl.
  - destruct skip; [|constructor].
    destruct (execAt re l []); repeat constructor.
  - destruct skip as [|skip]; [|apply IH].
    destruct (execAt re l (c :: r)) as [m0|] eqn:E; [|apply IH].
    constructor; [apply IH|]. apply Forall_forall. intros m Hin.
    apply scan_index_ge in Hin. unfold precedes. rewrite (execAt_index _ _ _ E).
    simpl in Hin. lia.
Qed.

Lemma matchAll_ordered (re : regex) (text : jsstring) :
  StronglySorted precedes (matchAll re text).
Proof. apply scan_ordered. Qed.

Lemma StronglySorted_map (A B : Type) (f : A -> B) (R : B -> B -> Prop) (l : list A) :
  StronglySorted (fun a b => R (f a) (f b)) l -> StronglySorted R (map f l).
Proof.
  induction 1 as [|x l Hl IH Hx]; simpl; constructor; [exact IH|].
  apply Forall_forall. intros y Hy. apply in_map_iff in Hy. destruct Hy as (a & <- & Ha).
  now apply (proj1 (Forall_forall _ _) Hx).
Qed.

End ScanFacts.

(** ** More on the answer segmenter *)
Module QaExtra.
Import Regex RegexFacts ExtractQaPairs QaFacts TextFacts ScanFacts.

Lemma spans_In (text : jsstring) (ms : list Marker) (p : QaPair) :
  In p (spans text ms) ->
  exists m i j, In m ms /\ questionId p = qid m
                /\ ExtractQaPairs.text p = Js.trim (Js.slice text i j).
Proof.
  induction ms as [|m rest IH]; simpl; [intros []|].
  intros [<-|Hin].
  - eexists m, _, _. split; [now left|]. split; reflexivity.
  - destruct (IH Hin) as (m' & i & j & Hm & Hq & Ht).
    exists m', i, j. split; [now right|auto].
Qed.

(** What the result is made of: the one span of the whole text, or spans of
    markers. *)
Lemma extractQaPairs_cases (rawText : jsstring) (p : QaPair) :
  In p (extractQaPairs rawText) ->
  p = mkQaPair (str "1") (normalise rawText)
  \/ In p (spans (normalise rawText) (findMarkers (normalise rawText))).
Proof.
  unfold extractQaPairs. cbv zeta.
  destruct (normalise rawText) as [|c t] eqn:Et; [intros []|].
  destruct (findMarkers (c :: t)) as [|m ms] eqn:Em.
  - intros [<-|[]]. now left.
  - intros Hin. right. apply JsFacts.sort_In in Hin.
    apply (proj2 (dedup_spec _)) in Hin. now apply lastWithId_In in Hin.
Qed.

Lemma lastWithId_some (pairs : list QaPair) (p : QaPair) :
  In p pairs -> exists p', lastWithId pairs (questionId p) = Some p'.
Proof.
  intros Hin. unfold lastWithId.
  destruct (find (fun q => Js.eqb (questionId q) (questionId p)) (rev pairs)) as [p'|] eqn:E;
    [eauto|].
  exfalso. apply (find_none _ _ E p) in Hin || (apply in_rev in Hin; apply (find_none _ _ E) in Hin).
  now rewrite JsFacts.eqb_refl in Hin.
Qed.

(** X1. The result is empty exactly when the trimmed text is empty. *)
Theorem empty_result_iff_blank (rawText : jsstring) :
  extractQaPairs rawText = [] <-> normalise rawText = [].
Proof.
  split.
  - unfold extractQaPairs. cbv zeta.
    destruct (normalise rawText) as [|c t] eqn:Et; [reflexivity|].
    destruct (findMarkers (c :: t)) as [|m ms] eqn:Em; [discriminate|].
    rewrite <- Em. intros Hnil. exfalso.
    set (pairs := spans (c :: t) (findMarkers (c :: t))) in *.
    assert (Hp : exists p, In p pairs).
    { unfold pairs. rewrite Em. simpl. eexists. now left. }
    destruct Hp as [p Hp]. destruct (lastWithId_some _ _ Hp) as [p' Hp'].
    assert (Hin : In p' (dedup pairs)).
    { apply (proj2 (dedup_spec pairs)).
      destruct (lastWithId_In _ _ Hp') as [_ ->]. exact Hp'. }
    apply (JsFacts.sort_In byNumber) in Hin. rewrite Hnil in Hin. exact Hin.
  - unfold extractQaPairs. now intros ->.
Qed.

Lemma result_id_digits (rawText : jsstring) (p : QaPair) :
  In p (extractQaPairs rawText) ->
  allDigit (questionId p)
  /\ 1 <= length (questionId p) <= 3
  /\ exists n, Js.Number (questionId p) = Some n /\ (0 <= n <= 999)%Z.
Proof.
  intros Hin. apply extractQaPairs_cases in Hin. destruct Hin as [->|Hin].
  - simpl. split; [repeat constructor|]. split; [lia|]. exists 1%Z. split; [reflexivity|lia].
  - apply spans_In in Hin. destruct Hin as (m & _ & _ & Hm & -> & _).
    destruct (marker_qid_digits _ _ Hm) as [Hd Hlen].
    split; [exact Hd|]. split; [exact Hlen|].
    apply Number_three_digits; [exact Hd|lia].
Qed.

(** X2. Every question id of the result is one to three decimal digits and
    reads as a number from 0 to 999. *)
Theorem question_ids_are_short_numbers (rawText : jsstring) (p : QaPair) :
  In p (extractQaPairs rawText) ->
  allDigit (questionId p)
  /\ 1 <= length (questionId p) <= 3
  /\ exists n, Js.Number (questionId p) = Some n /\ (0 <= n <= 999)%Z.
Proof. apply result_id_digits. Qed.

Lemma question_ids_are_short_numbers_witness :
  allDigit (str "10")
  /\ 1 <= length (str "10") <= 3
  /\ exists n, Js.Number (str "10") = Some n /\ (0 <= n <= 999)%Z.
Proof.
  apply (@question_ids_are_short_numbers (str "Q10: ten") (mkQaPair (str "10") (str "ten"))).
  vm_compute. now left.
Defined.

(** X3. The text of every span has no white space at its ends and is a
    piece of the trimmed input: nothing in it is made up. *)
Theorem span_texts_are_trimmed_pieces (rawText : jsstring) (p : QaPair) :
  In p (extractQaPairs rawText) ->
  Js.trim (text p) = text p
  /\ exists a b, normalise rawText = a ++ text p ++ b.
Proof.
  intros Hin. apply extractQaPairs_cases in Hin. destruct Hin as [->|Hin].
  - simpl. split; [apply trim_idempotent|]. exists [], []. now rewrite app_nil_r.
  - apply spans_In in Hin. destruct Hin as (m & i & j & _ & _ & ->).
    split; [apply trim_idempotent|].
    destruct (slice_piece (normalise rawText) i j) as (a & b & Hs).
    destruct (trim_piece (Js.slice (normalise rawText) i j)) as (a' & b' & Ht & _).
    exists (a ++ a'), (b' ++ b). rewrite Hs at 1. rewrite Ht at 1.
    now rewrite <- !app_assoc.
Qed.

Lemma span_texts_are_trimmed_pieces_witness :
  Js.trim (str "ten") = str "ten"
  /\ exists a b, normalise (str "Q10:  ten ") = a ++ str "ten" ++ b.
Proof.
  apply (@span_texts_are_trimmed_pieces (str "Q10:  ten ") (mkQaPair (str "10") (str "ten"))).
  vm_compute. now left.
Defined.

(** Where a marker ends: the start of its span. *)
Definition markerEnd (m : Marker) : nat := idx m + markerLen m.

Lemma markerOf_extent (text : jsstring) (rm : rmatch) :
  In rm (matchAll re text) ->
  index rm <= idx (markerOf rm)
  /\ markerEnd (markerOf rm) = index rm + length (whole rm)
  /\ 2 <= markerLen (markerOf rm)
  /\ index rm + length (whole rm) <= length text.
Proof.
  intros Hin. apply matchAll_sound in Hin.
  destruct Hin as (pre & rest & Etext & Hidx & _ & Hm).
  apply re_shape in Hm. destruct Hm as (lead & d & mt & Ew & _ & Hc1 & _ & Hmt).
  apply markerText_length in Hmt.
  unfold markerEnd, markerOf, group. rewrite Hc1. simpl.
  rewrite Etext, Ew, Hidx, !length_app. lia.
Qed.

(** X4. The markers come in the order of the text and do not overlap: each
    starts at or after the end of the one before, is at least two characters
    long and ends within the text, so every span is cut between a start and
    an end that are in range and in order. *)
Theorem markers_in_order (text : jsstring) :
  StronglySorted (fun a b => markerEnd a <= idx b) (findMarkers text)
  /\ forall m, In m (findMarkers text) ->
       idx m + 2 <= markerEnd m /\ markerEnd m <= length text.
Proof.
  unfold findMarkers. split.
  - apply StronglySorted_map.
    apply StronglySorted_weaken with (R := precedes); [|apply matchAll_ordered].
    intros a b Ha Hb Hab. unfold precedes in Hab.
    destruct (markerOf_extent _ _ Ha) as (_ & -> & _).
    destruct (markerOf_extent _ _ Hb) as (Hb' & _). lia.
  - intros m Hin. apply in_map_iff in Hin. destruct Hin as (rm & <- & Hrm).
    destruct (markerOf_extent _ _ Hrm) as (_ & He & Hl & Hin).
    unfold markerEnd in *. lia.
Qed.

End QaExtra.

(** ** More on the score extractor *)
Module ScoreExtra.
Import Regex RegexFacts ExtractScore ScoreFacts QaFacts TextFacts.

(** One to three decimal digits. *)
Definition digits3 (d : jsstring) : Prop := allDigit d /\ 1 <= length d <= 3.

Lemma fraction_shape (w : jsstring) (cs : captures) :
  matches reFraction w [] cs ->
  exists d1 ws1 ws2 d2,
    w = d1 ++ ws1 ++ "/"%char :: ws2 ++ d2
    /\ capture cs 1 = Some d1 /\ capture cs 2 = Some d2
    /\ digits3 d1 /\ digits3 d2 /\ allSpace ws1 /\ allSpace ws2.
Proof.
  intros H. cbv [reFraction digits] in H. inv_matches.
  match goal with H : Chr.eqb _ ?c = true |- _ => apply Ascii.eqb_eq in H; subst c end.
  match goal with
  | |- exists _ _ _ _, [] ++ ?a ++ ?b ++ [_] ++ ?c ++ ?d ++ [] = _ /\ _ => exists a, b, c, d
  end.
  unfold digits3, allDigit, allSpace. simpl. rewrite app_nil_r. repeat split; assumption || lia.
Qed.

Lemma outOf_shape (w : jsstring) (cs : captures) :
  matches reOutOf w [] cs ->
  exists d1 ws1 ws2 ws3 d2,
    w = d1 ++ ws1 ++ str "out" ++ ws2 ++ str "of" ++ ws3 ++ d2
    /\ capture cs 1 = Some d1 /\ capture cs 2 = Some d2
    /\ digits3 d1 /\ digits3 d2 /\ allSpace ws1 /\ allSpace ws2 /\ allSpace ws3.
Proof.
  intros H. cbv [reOutOf digits lit str list_ascii_of_string fold_right] in H. inv_matches.
  repeat match goal with
         | H : Chr.eqb _ ?c = true |- _ => apply Ascii.eqb_eq in H; subst c
         end.
  match goal with
  | |- exists _ _ _ _ _, [] ++ ?a ++ ?b ++ _ ++ ?c ++ _ ++ ?d ++ ?e ++ [] = _ /\ _ =>
      exists a, b, c, d, e
  end.
  unfold digits3, allDigit, allSpace. simpl. rewrite app_nil_r. repeat split; assumption || lia.
Qed.

Lemma number_shape (w : jsstring) (cs : captures) :
  matches reNumber w [] cs -> capture cs 1 = Some w /\ digits3 w.
Proof.
  intros H. cbv [reNumber digits] in H. inv_matches.
  simpl. rewrite app_nil_r. unfold digits3, allDigit. auto.
Qed.

Lemma digits3_number (d : jsstring) :
  digits3 d -> exists n, Js.Number d = Some n /\ (0 <= n <= 999)%Z.
Proof. intros [Hd Hl]. apply Number_three_digits; [exact Hd|lia]. Qed.

(** The two numbers of a fraction or "out of" match. *)
Lemma pair_numbers (text : jsstring) (m : rmatch) :
  In m (matchAll reFraction text) \/ In m (matchAll reOutOf text) ->
  exists a b, groupNumber m 1 = Some a /\ groupNumber m 2 = Some b
              /\ (0 <= a <= 999)%Z /\ (0 <= b <= 999)%Z.
Proof.
  unfold groupNumber, group.
  intros [Hin|Hin]; apply matchAll_sound in Hin;
    destruct Hin as (pre & rest & _ & _ & _ & Hm).
  - apply fraction_shape in Hm.
    destruct Hm as (d1 & ws1 & ws2 & d2 & _ & -> & -> & H1 & H2 & _).
    destruct (digits3_number H1) as (a & -> & Ha), (digits3_number H2) as (b & -> & Hb).
    exists a, b. auto.
  - apply outOf_shape in Hm.
    destruct Hm as (d1 & ws1 & ws2 & ws3 & d2 & _ & -> & -> & H1 & H2 & _).
    destruct (digits3_number H1) as (a & -> & Ha), (digits3_number H2) as (b & -> & Hb).
    exists a, b. auto.
Qed.

Lemma pairCandidate_fields (m : rmatch) (c : Candidate) :
  pairCandidate m = Some c ->
  c_raw c = whole m /\ groupNumber m 1 = Some (c_obtained c) /\ groupNumber m 2 = c_outOf c.
Proof.
  unfold pairCandidate.
  destruct (groupNumber m 1) as [o|]; [|discriminate].
  destruct (groupNumber m 2) as [t|]; [|discriminate].
  destruct (t <=? 0)%Z; [discriminate|].
  destruct ((o <? 0)%Z || (o >? t)%Z); [discriminate|].
  intros [= <-]. auto.
Qed.

Lemma no_slash_among (p : ascii -> bool) (d : jsstring) :
  p "/"%char = false -> Forall (fun c => p c = true) d ->
  existsb (Chr.eqb "/"%char) d = false.
Proof.
  intros Hp Hd. apply not_true_is_false. intros E. apply existsb_exists in E.
  destruct E as (x & Hx & E). apply Ascii.eqb_eq in E. subst x.
  apply (proj1 (Forall_forall _ _) Hd) in Hx. congruence.
Qed.

Lemma fraction_has_slash (text : jsstring) (m : rmatch) :
  In m (matchAll reFraction text) -> hasSlash (whole m) = true.
Proof.
  intros Hm. apply matchAll_sound in Hm. destruct Hm as (pre & rest & _ & _ & _ & Hs).
  apply fraction_shape in Hs. destruct Hs as (d1 & ws1 & ws2 & d2 & -> & _).
  unfold hasSlash, Js.includesChar. rewrite !existsb_app. simpl.
  now rewrite !orb_true_r.
Qed.

Lemma outOf_has_no_slash (text : jsstring) (m : rmatch) :
  In m (matchAll reOutOf text) -> hasSlash (whole m) = false.
Proof.
  intros Hm. apply matchAll_sound in Hm. destruct Hm as (pre & rest & _ & _ & _ & Hs).
  apply outOf_shape in Hs.
  destruct Hs as (d1 & ws1 & ws2 & ws3 & d2 & -> & _ & _ & [H1 _] & [H2 _] & Hw1 & Hw2 & Hw3).
  unfold hasSlash, Js.includesChar. rewrite !existsb_app.
  rewrite (no_slash_among Chr.isDigit eq_refl H1), (no_slash_among Chr.isDigit eq_refl H2),
    (no_slash_among Chr.isSpace eq_refl Hw1), (no_slash_among Chr.isSpace eq_refl Hw2),
    (no_slash_among Chr.isSpace eq_refl Hw3).
  reflexivity.
Qed.

Lemma pairCandidates_bound (text : jsstring) (c : Candidate) :
  In c (pairCandidates text) ->
  exists t, c_outOf c = Some t /\ (0 < t <= 999)%Z /\ (0 <= c_obtained c <= t)%Z.
Proof.
  intros Hin. destruct (pairCandidates_valid _ _ Hin) as (t & Ht & Hpos & Ho).
  exists t. split; [exact Ht|]. split; [|exact Ho]. split; [exact Hpos|].
  unfold pairCandidates in Hin. apply in_app_or in Hin.
  assert (Hm : exists m, (In m (matchAll reFraction text) \/ In m (matchAll reOutOf text))
                         /\ pairCandidate m = Some c).
  { destruct Hin as [Hin|Hin]; apply In_filterMap in Hin;
      destruct Hin as (m & Hm & Hc); exists m; tauto. }
  destruct Hm as (m & Hm & Hc).
  destruct (pairCandidate_fields _ Hc) as (_ & _ & H2).
  destruct (pair_numbers _ _ Hm) as (a & b & _ & Hb & _ & Hbb).
  rewrite Hb, Ht in H2. injection H2 as ->. lia.
Qed.

(** X8. A candidate of the fraction scan has a slash in its raw text and a
    candidate of the "out of" scan has none, so the method of a result tells
    which of the two scans its winner comes from. *)
Theorem slash_tells_the_scan (text : jsstring) :
  (forall c, In c (filterMap pairCandidate (matchAll reFraction text)) ->
             hasSlash (c_raw c) = true)
  /\ (forall c, In c (filterMap pairCandidate (matchAll reOutOf text)) ->
                hasSlash (c_raw c) = false).
Proof.
  split; intros c Hin; apply In_filterMap in Hin; destruct Hin as (m & Hm & Hc);
    destruct (pairCandidate_fields _ Hc) as (-> & _).
  - now apply fraction_has_slash in Hm.
  - now apply outOf_has_no_slash in Hm.
Qed.

Lemma firstNear_range (text : jsstring) (e : Z) (ms : list rmatch) (o : Z) :
  firstNear text e ms = Some o -> (0 <= o <= e)%Z.
Proof.
  induction ms as [|m rest IH]; simpl; [discriminate|].
  destruct (windowNumber text m) as [n|]; [|exact IH].
  destruct (Z.leb_spec 0 n); simpl; [|exact IH].
  destruct (Z.leb_spec n e); [|exact IH].
  intros [= <-]. lia.
Qed.

Lemma plausibleNumbers_range (text : jsstring) (n : Z) :
  In n (plausibleNumbers text) -> (0 <= n <= 100)%Z.
Proof.
  unfold plausibleNumbers. intros H. apply filter_In in H. destruct H as [_ H].
  apply andb_true_iff in H. destruct H as [H1 H2].
  apply Z.leb_le in H1. apply Z.leb_le in H2. lia.
Qed.

Lemma pickBestPair_In (cs : list Candidate) (e : option Z) (w : Candidate) :
  pickBestPair cs e = Some w -> In w cs /\ firstMax (specScore e) cs w.
Proof.
  intros H. destruct cs as [|c cs']; [discriminate|].
  destruct (@pickBestPair_firstMax (c :: cs') e) as [w' [Hw Hmax]]; [discriminate|].
  rewrite H in Hw. injection Hw as <-. split; [now apply firstMax_In in Hmax|exact Hmax].
Qed.

(** [expectedOutOf && ...]: a supplied total that is not 0. *)
Definition truthy (e : option Z) : bool :=
  match e with Some x => negb (x =? 0)%Z | None => false end.

Definition labelMiss (text : jsstring) (e : option Z) (l : option jsstring) : Prop :=
  forall t, e = Some t -> findNearLabelNumber (normalize text) (labelOf l) t = None.

(** The four ways [extractScoreFromText] ends. *)
Lemma score_outcome (text : jsstring) (e : option Z) (l : option jsstring) :
  let r := extractScoreFromText text e l in
  let cands := pairCandidates (normalize text) in
  (exists w, In w cands /\ pickBestPair cands e = Some w
     /\ r = mkExtractedScore (Some (c_obtained w)) (c_outOf w)
              (if truthy e && optZeqb (c_outOf w) e then 0.95%Q else 0.85%Q)
              (if hasSlash (c_raw w) then fraction else out_of) cands)
  \/ (cands = [] /\ exists t o, e = Some t
        /\ findNearLabelNumber (normalize text) (labelOf l) t = Some o
        /\ r = mkExtractedScore (Some o) (Some t) 0.65%Q label
                 [mkCandidate o (Some t) (labelOf l ++ str ": " ++ Js.ofZ o)])
  \/ (cands = [] /\ labelMiss text e l /\ exists o ns,
        plausibleNumbers (normalize text) = o :: ns
        /\ r = mkExtractedScore (Some o) e 0.25%Q fallback [mkCandidate o e (Js.ofZ o)])
  \/ (cands = [] /\ labelMiss text e l /\ plausibleNumbers (normalize text) = []
      /\ r = mkExtractedScore None e 0%Q fallback []).
Proof.
  unfold extractScoreFromText, labelMiss. cbv zeta.
  destruct (pickBestPair (pairCandidates (normalize text)) e) as [w|] eqn:Hpick.
  - left. exists w. split; [now apply pickBestPair_In in Hpick|]. split; [reflexivity|].
    unfold truthy. reflexivity.
  - right. apply pickBestPair_none in Hpick. rewrite Hpick. simpl.
    destruct e as [t|].
    + destruct (findNearLabelNumber (normalize text) (labelOf l) t) as [o|] eqn:Hlab.
      * left. split; [reflexivity|]. exists t, o. auto.
      * right. destruct (plausibleNumbers (normalize text)) as [|o ns] eqn:Hpl.
        -- right. repeat split; try reflexivity. now intros ? [= <-].
        -- left. split; [reflexivity|]. split; [now intros ? [= <-]|]. exists o, ns. auto.
    + right. destruct (plausibleNumbers (normalize text)) as [|o ns] eqn:Hpl.
      * right. repeat split; try reflexivity. discriminate.
      * left. split; [reflexivity|]. split; [discriminate|]. exists o, ns. auto.
Qed.

(** X5. The numbers of a result are in range.  A score is never negative.
    With the method "fraction" or "out_of" the score is at most the total,
    and the total is from 1 to 999; with "label" the total is the expected
    one and the score is at most it; with "fallback" the total is the
    expected one, or null, and the score, if any, is at most 100: only there
    can it exceed the total. *)
Theorem result_in_range (text : jsstring) (expectedOutOf : option Z)
    (labelHint : option jsstring) :
  let r := extractScoreFromText text expectedOutOf labelHint in
  (forall o, obtained r = Some o -> (0 <= o)%Z)
  /\ (method r = fraction \/ method r = out_of ->
      exists o t, obtained r = Some o /\ outOf r = Some t
                  /\ (0 <= o <= t)%Z /\ (0 < t <= 999)%Z)
  /\ (method r = label ->
      exists o t, expectedOutOf = Some t /\ obtained r = Some o /\ outOf r = Some t
                  /\ (0 <= o <= t)%Z)
  /\ (method r = fallback ->
      outOf r = expectedOutOf /\ forall o, obtained r = Some o -> (0 <= o <= 100)%Z).
Proof.
  destruct (score_outcome text expectedOutOf labelHint)
    as [(w & Hin & _ & ->)|[(_ & t & o & -> & Hlab & ->)|[(_ & _ & o & ns & Hpl & ->)|(_ & _ & _ & ->)]]];
    cbv zeta; simpl.
  - destruct (pairCandidates_bound _ _ Hin) as (t & Ht & Hr & Ho).
    split; [intros o [= <-]; lia|]. split; [intros _; exists (c_obtained w), t; auto|].
    destruct (hasSlash (c_raw w)); split; discriminate.
  - apply firstNear_range in Hlab.
    split; [intros x [= <-]; lia|]. split; [intros [|]; discriminate|].
    split; [intros _; exists o, t; auto|discriminate].
  - assert (Ho : (0 <= o <= 100)%Z)
      by (apply (plausibleNumbers_range (normalize text)); rewrite Hpl; now left).
    split; [intros x [= <-]; lia|]. split; [intros [|]; discriminate|]. split; [discriminate|].
    intros _. split; [reflexivity|intros x [= <-]; lia].
  - split; [discriminate|]. split; [intros [|]; discriminate|]. split; [discriminate|].
    intros _. split; [reflexivity|discriminate].
Qed.

Lemma firstMax_ge (A : Type) (f : A -> Z) (l : list A) (w c : A) :
  firstMax f l w -> In c l -> (f c <= f w)%Z.
Proof.
  intros (pre & post & -> & Hpre & Hpost) Hin. apply in_app_or in Hin.
  destruct Hin as [Hin|[<-|Hin]]; [specialize (Hpre c Hin)|..|specialize (Hpost c Hin)]; lia.
Qed.

Lemma winner_exists (cs : list Candidate) (e : option Z) (c : Candidate) :
  In c cs -> exists w, In w cs /\ firstMax (specScore e) cs w /\ pickBestPair cs e = Some w.
Proof.
  intros Hin. destruct (@pickBestPair_firstMax cs e) as [w [Hp Hm]].
  { intros ->. exact Hin. }
  exists w. split; [now apply firstMax_In in Hm|auto].
Qed.

(** X6. When the expected total is at least 5 and one of the scanned
    candidates is out of that total, the result is out of that total, with
    the confidence 0.95.  Below 5 the bonus of 1000 can lose to a fraction
    out of 996 or more: on "1 out of 1, 998/999" with the expected total 1 the
    result is 998 out of 999. *)
Theorem expected_total_wins (text : jsstring) (t : Z) (labelHint : option jsstring)
    (c : Candidate) :
  (5 <= t)%Z ->
  In c (pairCandidates (normalize text)) -> c_outOf c = Some t ->
  let r := extractScoreFromText text (Some t) labelHint in
  outOf r = Some t /\ confidence r = 0.95%Q
  /\ outOf (extractScoreFromText (str "1 out of 1, 998/999") (Some 1%Z) None) = Some 999%Z.
Proof.
  intros Ht Hin Hc r. subst r.
  destruct (@winner_exists _ (Some t) _ Hin) as (w & Hw & Hmax & Hpick).
  assert (Hwt : c_outOf w = Some t).
  { pose proof (firstMax_ge _ Hmax Hin) as Hle.
    destruct (pairCandidates_bound _ _ Hw) as (tw & Htw & Hr & _).
    unfold specScore in Hle. rewrite Hc, Htw in Hle. rewrite Htw.
    destruct (Z.eq_dec tw t) as [E|Hne]; [now rewrite E|].
    apply Z.eqb_neq in Hne. rewrite Hne, Z.eqb_refl in Hle.
    destruct (hasSlash (c_raw c)), (hasSlash (c_raw w)); lia. }
  unfold extractScoreFromText. cbv zeta. rewrite Hpick. simpl.
  split; [exact Hwt|]. split; [|reflexivity].
  rewrite Hwt. simpl. rewrite Z.eqb_refl.
  destruct (Z.eqb_spec t 0); [lia|reflexivity].
Qed.

Lemma expected_total_wins_witness :
  let r := extractScoreFromText (str "Part A 4/5, total 17/20") (Some 20%Z) None in
  outOf r = Some 20%Z /\ confidence r = 0.95%Q
  /\ outOf (extractScoreFromText (str "1 out of 1, 998/999") (Some 1%Z) None) = Some 999%Z.
Proof.
  apply (@expected_total_wins (str "Part A 4/5, total 17/20") 20 None
           (mkCandidate 17 (Some 20%Z) (str "17/20"))).
  - lia.
  - vm_compute. right. now left.
  - reflexivity.
Defined.

(** X7. Which strategy answered.  The method is "fraction" or "out_of"
    exactly when the two scans found a valid pair, whatever the label and the
    other numbers of the text; the confidence is 0.65 exactly for the method
    "label", and 0 exactly when no score was found. *)
Theorem strategy_priority (text : jsstring) (expectedOutOf : option Z)
    (labelHint : option jsstring) :
  let r := extractScoreFromText text expectedOutOf labelHint in
  (method r = fraction \/ method r = out_of <-> pairCandidates (normalize text) <> [])
  /\ (method r = fraction \/ method r = out_of
      <-> confidence r = 0.85%Q \/ confidence r = 0.95%Q)
  /\ (method r = label <-> confidence r = 0.65%Q)
  /\ (obtained r = None <-> confidence r = 0%Q).
Proof.
  destruct (score_outcome text expectedOutOf labelHint)
    as [(w & Hin & _ & ->)|[(Hc & t & o & -> & Hlab & ->)|[(Hc & _ & o & ns & Hpl & ->)|(Hc & _ & _ & ->)]]];
    cbv zeta; simpl.
  - assert (Hne : pairCandidates (normalize text) <> []) by (intros E; rewrite E in Hin; exact Hin).
    split; [split; [auto|intros _; destruct (hasSlash (c_raw w)); auto]|].
    split; [split; [intros _; destruct (_ && _); auto|intros _; destruct (hasSlash (c_raw w)); auto]|].
    split; [destruct (hasSlash (c_raw w)), (_ && _); split; discriminate|].
    destruct (_ && _); split; discriminate.
  - rewrite Hc. repeat split; try discriminate; try tauto;
      intros [|]; discriminate || congruence.
  - rewrite Hc. repeat split; try discriminate; try tauto;
      intros [|]; discriminate || congruence.
  - rewrite Hc. repeat split; try discriminate; try tauto;
      intros [|]; discriminate || congruence.
Qed.

Lemma normalize_lower (text : jsstring) : normalize (Js.toLowerCase text) = normalize text.
Proof. unfold normalize. now rewrite toLowerCase_idempotent. Qed.

Lemma labelOf_lower (l : option jsstring) : labelOf (option_map Js.toLowerCase l) = labelOf l.
Proof.
  destruct l as [[|c h]|]; try reflexivity.
  unfold labelOf. simpl. now rewrite toLower_idempotent, (toLowerCase_idempotent h).
Qed.

(** X9. Letter case does not count: the text and the label hint may be
    given in lower case without changing the result. *)
Theorem score_ignores_case (text : jsstring) (expectedOutOf : option Z)
    (labelHint : option jsstring) :
  extractScoreFromText (Js.toLowerCase text) expectedOutOf (option_map Js.toLowerCase labelHint)
  = extractScoreFromText text expectedOutOf labelHint.
Proof.
  unfold extractScoreFromText. now rewrite normalize_lower, labelOf_lower.
Qed.

(** *** A text without a digit *)

Definition noDigit (s : jsstring) : Prop := forall c, In c s -> Chr.isDigit c = false.

Lemma collapseBlanks_In (s : jsstring) :
  forall b c, In c (collapseBlanks b s) -> c = Chr.SP \/ In c s.
Proof.
  induction s as [|x s IH]; intros b c; simpl; [tauto|].
  destruct (Chr.isCode 32 x || Chr.isCode 9 x).
  - destruct b; [intros H; apply IH in H; tauto|].
    intros [<-|H]; [now left|]. apply IH in H. tauto.
  - intros [<-|H]; [tauto|]. apply IH in H. tauto.
Qed.

Lemma normalize_noDigit (text : jsstring) : noDigit text -> noDigit (normalize text).
Proof.
  intros H c Hc. unfold normalize in Hc.
  apply trim_In in Hc. apply collapseBlanks_In in Hc. destruct Hc as [->|Hc]; [reflexivity|].
  apply replaceCRLF_In in Hc. destruct Hc as [->|Hc]; [reflexivity|].
  unfold Js.toLowerCase in Hc. apply in_map_iff in Hc. destruct Hc as (x & <- & Hx).
  rewrite toLower_digit. now apply H.
Qed.

Lemma slice_In (s : jsstring) (i j : nat) (c : ascii) : In c (Js.slice s i j) -> In c s.
Proof.
  intros H. destruct (slice_piece s i j) as (a & b & ->).
  rewrite !in_app_iff. tauto.
Qed.

(** A regex whose matches all hold a digit finds nothing in such a text. *)
Lemma no_match_without_digit (re : regex) (text : jsstring) :
  (forall w cs, matches re w [] cs -> exists c, In c w /\ Chr.isDigit c = true) ->
  noDigit text -> matchAll re text = [].
Proof.
  intros Hre Hnd. destruct (matchAll re text) as [|m ms] eqn:E; [reflexivity|].
  exfalso. destruct (@matchAll_sound re text m) as (pre & rest & Ht & _ & _ & Hm).
  { rewrite E. now left. }
  destruct (Hre _ _ Hm) as (c & Hc & Hd).
  rewrite (Hnd c) in Hd; [discriminate|].
  rewrite Ht, !in_app_iff. tauto.
Qed.

Lemma digits3_has_digit (d : jsstring) : digits3 d -> exists c, In c d /\ Chr.isDigit c = true.
Proof.
  intros [Hd Hl]. destruct d as [|c d]; [simpl in Hl; lia|].
  exists c. split; [now left|now inversion Hd].
Qed.

Lemma fraction_digit (w : jsstring) (cs : captures) :
  matches reFraction w [] cs -> exists c, In c w /\ Chr.isDigit c = true.
Proof.
  intros H. apply fraction_shape in H. destruct H as (d1 & ? & ? & ? & -> & _ & _ & H1 & _).
  destruct (digits3_has_digit H1) as (c & Hc & Hd). exists c. rewrite in_app_iff. tauto.
Qed.

Lemma outOf_digit (w : jsstring) (cs : captures) :
  matches reOutOf w [] cs -> exists c, In c w /\ Chr.isDigit c = true.
Proof.
  intros H. apply outOf_shape in H. destruct H as (d1 & ? & ? & ? & ? & -> & _ & _ & H1 & _).
  destruct (digits3_has_digit H1) as (c & Hc & Hd). exists c. rewrite in_app_iff. tauto.
Qed.

Lemma number_digit (w : jsstring) (cs : captures) :
  matches reNumber w [] cs -> exists c, In c w /\ Chr.isDigit c = true.
Proof. intros H. apply number_shape in H. now apply digits3_has_digit. Qed.

Lemma firstNear_noDigit (text : jsstring) (e : Z) (ms : list rmatch) :
  noDigit text -> firstNear text e ms = None.
Proof.
  intros Hnd. induction ms as [|m rest IH]; simpl; [reflexivity|].
  unfold windowNumber, matchFirst.
  rewrite (no_match_without_digit number_digit); [exact IH|].
  intros c Hc. apply slice_In in Hc. now apply Hnd.
Qed.

(** X10. On a text without any digit no strategy finds a score: the result
    is the total failure, whatever the expected total and the label hint. *)
Theorem no_digit_no_score (text : jsstring) (expectedOutOf : option Z)
    (labelHint : option jsstring) :
  forallb (fun c => negb (Chr.isDigit c)) text = true ->
  extractScoreFromText text expectedOutOf labelHint
  = mkExtractedScore None expectedOutOf 0%Q fallback [].
Proof.
  intros H.
  assert (Hnd : noDigit (normalize text)).
  { apply normalize_noDigit. intros c Hc.
    apply (proj1 (forallb_forall _ _) H) in Hc. now destruct (Chr.isDigit c). }
  unfold extractScoreFromText, pairCandidates, findNearLabelNumber, plausibleNumbers.
  cbv zeta.
  rewrite (no_match_without_digit fraction_digit Hnd),
    (no_match_without_digit outOf_digit Hnd), (no_match_without_digit number_digit Hnd).
  simpl. destruct expectedOutOf as [e|]; [|reflexivity].
  now rewrite (firstNear_noDigit _ _ Hnd).
Qed.

Lemma no_digit_no_score_witness :
  extractScoreFromText (str "Well done! Marks: see overleaf") (Some 20%Z) None
  = mkExtractedScore None (Some 20%Z) 0%Q fallback [].
Proof.
  apply (@no_digit_no_score (str "Well done! Marks: see overleaf") (Some 20%Z) None).
  reflexivity.
Defined.

End ScoreExtra.

(** ** More on the heuristic grader *)
Module GradingExtra.
Import ExtractQaPairs GradingHeuristic GradingFacts TextFacts.

(** *** Tokens *)

Lemma splitSpaces_chars (s : jsstring) :
  forall b cur piece,
    (forall c, In c cur -> Chr.isSpace c = false) ->
    In piece (splitSpaces b cur s) ->
    forall c, In c piece -> Chr.isSpace c = false /\ (In c cur \/ In c s).
Proof.
  induction s as [|x s IH]; intros b cur piece Hcur; simpl.
  - intros [<-|[]] c Hc. apply in_rev in Hc. auto.
  - destruct (Chr.isSpace x) eqn:Ex.
    + assert (Hnil : forall c, In c (@nil ascii) -> Chr.isSpace c = false) by (intros c []).
      assert (Hrec : In piece (splitSpaces true [] s) ->
                forall c, In c piece -> Chr.isSpace c = false /\ (In c cur \/ x = c \/ In c s)).
      { intros Hp c Hc. destruct (IH _ _ _ Hnil Hp c Hc) as [H1 [[]|H2]]. auto. }
      destruct b; [exact Hrec|].
      intros [<-|Hp]; [|now apply Hrec].
      intros c Hc. apply in_rev in Hc. auto.
    + intros Hp c Hc.
      assert (Hcur' : forall c, In c (x :: cur) -> Chr.isSpace c = false).
      { intros c' [<-|Hc']; auto. }
      destruct (IH _ _ _ Hcur' Hp c Hc) as [H1 [[<-|H2]|H2]]; auto.
Qed.

Lemma in_stop_words (t : jsstring) :
  existsb (Js.eqb t) STOP_WORDS = false -> ~ In t STOP_WORDS.
Proof.
  intros H Hin.
  assert (E : existsb (Js.eqb t) STOP_WORDS = true); [|congruence].
  apply existsb_exists. exists t. split; [exact Hin|apply JsFacts.eqb_refl].
Qed.

(** X11. A token is at least two characters long, is made of lower-case
    letters and digits only, and is not a stop word. *)
Theorem tokens_are_clean (text t : jsstring) :
  In t (tokenize text) ->
  2 <= length t
  /\ Forall (fun c => Chr.isLowerAlnum c = true) t
  /\ ~ In t STOP_WORDS.
Proof.
  unfold tokenize. cbv zeta. intros Hin. apply filter_In in Hin. destruct Hin as [Hin Hf].
  apply andb_true_iff in Hf. destruct Hf as [Hlen Hstop].
  apply Nat.leb_le in Hlen. apply negb_true_iff in Hstop.
  split; [exact Hlen|]. split; [|now apply in_stop_words].
  apply in_map_iff in Hin. destruct Hin as (piece & <- & Hp).
  apply Forall_forall. intros c Hc. apply QaFacts.trim_In in Hc.
  assert (Hnil : forall c, In c (@nil ascii) -> Chr.isSpace c = false) by (intros ? []).
  destruct (@splitSpaces_chars _ _ _ _ Hnil Hp c Hc) as [Hsp [[]|Hc']].
  apply in_map_iff in Hc'. destruct Hc' as (x & Hx & _).
  destruct (Chr.isLowerAlnum x || Chr.isSpace x) eqn:E.
  - subst x. rewrite Hsp, orb_false_r in E. exact E.
  - subst c. discriminate.
Qed.

Lemma tokens_are_clean_witness :
  2 <= length (str "2x2")
  /\ Forall (fun c => Chr.isLowerAlnum c = true) (str "2x2")
  /\ ~ In (str "2x2") STOP_WORDS.
Proof.
  apply (@tokens_are_clean (str "It's 2x2 = 4, of course") (str "2x2")).
  vm_compute. now left.
Defined.

(** *** Frequency maps *)

Lemma countOf_zero (k : jsstring) (l : list jsstring) : countOf k l = 0 <-> ~ In k l.
Proof.
  unfold countOf. induction l as [|x l IH]; simpl; [tauto|].
  destruct (Js.eqb k x) eqn:E; simpl.
  - apply JsFacts.eqb_eq in E. subst. split; [discriminate|intros H; exfalso; auto].
  - apply JsFacts.eqb_neq in E. rewrite IH. split; [intros H [?|?]; auto|tauto].
Qed.

Lemma keys_fold_bump (l : list jsstring) :
  forall m, NoDup (Js.keys m) ->
    NoDup (Js.keys (fold_left bump l m))
    /\ forall k, In k (Js.keys (fold_left bump l m)) <-> In k l \/ In k (Js.keys m).
Proof.
  induction l as [|t l IH]; intros m Hm; simpl; [split; [exact Hm|tauto]|].
  destruct (IH (bump m t)) as [Hnd Hin]; [now apply JsFacts.keys_set_NoDup|].
  split; [exact Hnd|]. intros k. rewrite Hin. unfold bump. rewrite JsFacts.keys_set_In.
  intuition congruence.
Qed.

Lemma termFreq_keys (l : list jsstring) :
  NoDup (Js.keys (termFreq l)) /\ forall k, In k (Js.keys (termFreq l)) <-> In k l.
Proof.
  unfold termFreq. fold bump.
  destruct (@keys_fold_bump l [] (NoDup_nil _)) as [Hnd Hin].
  split; [exact Hnd|]. intros k. rewrite Hin. simpl. tauto.
Qed.

Lemma termFreq_entry (l : list jsstring) (k : jsstring) (v : nat) :
  In (k, v) (termFreq l) -> v = countOf k l /\ In k l.
Proof.
  intros Hin. destruct (termFreq_keys l) as [Hnd Hk].
  split.
  - rewrite <- getOr0_termFreq. unfold getOr0. now rewrite (JsFacts.In_get _ _ _ Hnd Hin).
  - apply Hk. unfold Js.keys. change k with (fst (k, v)). now apply in_map.
Qed.

(** X12. Looking a token up in the frequency map gives the number of times
    it occurs, and nothing for a token that does not occur; each token is a
    key once. *)
Theorem termFreq_lookup (tokens : list jsstring) :
  NoDup (Js.keys (termFreq tokens))
  /\ (forall k, In k (Js.keys (termFreq tokens)) <-> In k tokens)
  /\ (forall k, Js.get (termFreq tokens) k
                = if (countOf k tokens =? 0)%nat then None else Some (countOf k tokens)).
Proof.
  destruct (termFreq_keys tokens) as [Hnd Hk].
  split; [exact Hnd|]. split; [exact Hk|].
  intros k. pose proof (getOr0_termFreq tokens k) as Hg. unfold getOr0 in Hg.
  destruct (Nat.eqb_spec (countOf k tokens) 0) as [E|E].
  - destruct (Js.get (termFreq tokens) k) as [v|] eqn:Eg; [|reflexivity].
    exfalso. apply countOf_zero in E. apply E, Hk.
    apply JsFacts.has_In. unfold Js.has. now rewrite Eg.
  - destruct (Js.get (termFreq tokens) k) as [v|]; [now rewrite Hg|congruence].
Qed.

(** *** The most frequent keys of a frequency map *)

Lemma In_firstn (A : Type) (n : nat) (l : list A) (x : A) : In x (firstn n l) -> In x l.
Proof.
  revert n. induction l as [|y l IH]; intros [|n]; simpl; try tauto.
  intros [?|H]; [auto|right; eauto].
Qed.

Lemma NoDup_firstn (A : Type) (n : nat) (l : list A) : NoDup l -> NoDup (firstn n l).
Proof.
  revert n. induction l as [|x l IH]; intros [|n] H; simpl; try constructor.
  - inversion H; subst. intros Hin. apply In_firstn in Hin. contradiction.
  - inversion H; subst. now apply IH.
Qed.

Lemma StronglySorted_firstn (A : Type) (R : A -> A -> Prop) (n : nat) (l : list A) :
  StronglySorted R l -> StronglySorted R (firstn n l).
Proof.
  intros H. revert n. induction H as [|x l Hl IH Hx]; intros [|n]; simpl; try constructor.
  - apply IH.
  - apply Forall_forall. intros y Hy. apply In_firstn in Hy.
    now apply (proj1 (Forall_forall _ _) Hx).
Qed.

(** The entries [sort], [slice(0, n)] keep: at most [n], all from the map,
    the larger counts first. *)
Lemma top_entries (es : list (jsstring * nat)) (n : nat) :
  let top := firstn n (Js.sort byCountDesc es) in
  length top <= n
  /\ (forall e, In e top -> In e es)
  /\ (NoDup (map fst es) -> NoDup (map fst top))
  /\ StronglySorted (fun x y => snd y <= snd x) top.
Proof.
  cbv zeta. split; [apply firstn_le_length|]. split; [|split].
  - intros e He. apply In_firstn in He. now apply JsFacts.sort_In in He.
  - intros Hnd. rewrite <- firstn_map. apply NoDup_firstn.
    eapply Permutation_NoDup; [|exact Hnd].
    apply Permutation_map, JsFacts.sort_perm.
  - apply StronglySorted_firstn.
    apply QaFacts.StronglySorted_weaken
      with (R := JsFacts.keyLe (fun e : jsstring * nat => (- Z.of_nat (snd e))%Z)).
    + intros a b _ _. unfold JsFacts.keyLe. lia.
    + apply JsFacts.sort_sorted. intros a b. unfold byCountDesc. f_equal. lia.
Qed.

Lemma countOf_filter (f : jsstring -> bool) (k : jsstring) (l : list jsstring) :
  f k = true -> countOf k (filter f l) = countOf k l.
Proof.
  intros Hk. unfold countOf. induction l as [|x l IH]; simpl; [reflexivity|].
  destruct (f x) eqn:Ex; simpl.
  - destruct (Js.eqb k x); simpl; now rewrite IH.
  - destruct (Js.eqb k x) eqn:E; [|exact IH].
    apply JsFacts.eqb_eq in E. congruence.
Qed.

Lemma filter_true_id (A : Type) (l : list A) : filter (fun _ => true) l = l.
Proof. induction l as [|x l IH]; simpl; congruence. Qed.

(** The keys of the top entries of the frequency map of the long tokens of
    a text, under a filter on the entries. *)
Lemma top_long_tokens (text : jsstring) (keep : jsstring * nat -> bool) (n : nat) :
  let ks := map fst (firstn n (Js.sort byCountDesc
                 (filter keep (termFreq (filter longToken (tokenize text)))))) in
  length ks <= n
  /\ NoDup ks
  /\ (forall k, In k ks ->
        In k (tokenize text) /\ 5 <= length k
        /\ keep (k, countOf k (tokenize text)) = true)
  /\ StronglySorted (fun a b => countOf b (tokenize text) <= countOf a (tokenize text)) ks.
Proof.
  cbv zeta. set (toks := filter longToken (tokenize text)).
  set (es := filter keep (termFreq toks)).
  destruct (top_entries es n) as (Hlen & Hin & Hnd & Hsort).
  assert (Hentry : forall k v, In (k, v) es ->
            In k (tokenize text) /\ 5 <= length k /\ v = countOf k (tokenize text)
            /\ keep (k, v) = true).
  { intros k v He. apply filter_In in He. destruct He as [He Hkeep].
    apply termFreq_entry in He. destruct He as [Hv Hk].
    apply filter_In in Hk. destruct Hk as [Hk Hlong].
    split; [exact Hk|]. split; [now apply Nat.leb_le in Hlong|]. split; [|exact Hkeep].
    rewrite Hv. now apply countOf_filter. }
  split; [now rewrite length_map|]. split; [|split].
  - apply Hnd. unfold es.
    assert (Hf : forall l : list (jsstring * nat), NoDup (map fst l) -> NoDup (map fst (filter keep l))).
    { induction l as [|x l IH]; simpl; [auto|]. intros H. inversion H; subst.
      destruct (keep x); simpl; [|auto]. constructor; [|auto].
      intros Hx. apply in_map_iff in Hx. destruct Hx as (y & Hy & Hyin).
      apply filter_In in Hyin. destruct Hyin as [Hyin _].
      match goal with Hn : ~ In (fst x) _ |- _ => apply Hn end.
      rewrite <- Hy. now apply in_map. }
    apply Hf. apply (termFreq_keys toks).
  - intros k Hk. apply in_map_iff in Hk. destruct Hk as ([k' v] & <- & He). simpl.
    destruct (Hentry _ _ (Hin _ He)) as (H1 & H2 & -> & H4). auto.
  - apply ScanFacts.StronglySorted_map.
    eapply QaFacts.StronglySorted_weaken; [|exact Hsort].
    intros [ka va] [kb vb] Ha Hb. simpl.
    destruct (Hentry _ _ (Hin _ Ha)) as (_ & _ & -> & _).
    destruct (Hentry _ _ (Hin _ Hb)) as (_ & _ & -> & _). auto.
Qed.

(** X13. The key phrases of a model answer: at most [limit] of them, no
    phrase twice, each a token of the answer of five characters or more, the
    more frequent in the answer first. *)
Theorem key_phrases_spec (modelAnswer : jsstring) (limit : nat) :
  let ks := extractKeyPhrases modelAnswer limit in
  length ks <= limit
  /\ NoDup ks
  /\ (forall k, In k ks -> In k (tokenize modelAnswer) /\ 5 <= length k)
  /\ StronglySorted
       (fun a b => countOf b (tokenize modelAnswer) <= countOf a (tokenize modelAnswer)) ks.
Proof.
  cbv zeta. unfold extractKeyPhrases. cbv zeta.
  pose proof (top_long_tokens modelAnswer (fun _ => true) limit) as H.
  cbv zeta in H. rewrite filter_true_id in H. destruct H as (H1 & H2 & H3 & H4).
  split; [exact H1|]. split; [exact H2|]. split; [|exact H4].
  intros k Hk. destruct (H3 k Hk) as (? & ? & _). auto.
Qed.

Lemma filter_none (A : Type) (f : A -> bool) (l : list A) :
  (forall x, In x l -> f x = false) -> filter f l = [].
Proof.
  induction l as [|x l IH]; intros H; simpl; [reflexivity|].
  rewrite (H x) by now left. apply IH. intros; apply H; now right.
Qed.

Lemma in_setOf (xs : list jsstring) (k : jsstring) :
  existsb (Js.eqb k) (Js.setOf xs) = true <-> In k xs.
Proof.
  rewrite <- (proj2 (JsFacts.setOf_spec xs) k). split.
  - intros H. apply existsb_exists in H. destruct H as (x & Hx & E).
    apply JsFacts.eqb_eq in E. now subst.
  - intros H. apply existsb_exists. exists k. split; [exact H|apply JsFacts.eqb_refl].
Qed.

Lemma key_phrases_len (modelAnswer : jsstring) (limit : nat) :
  length (extractKeyPhrases modelAnswer limit) <= limit.
Proof. unfold extractKeyPhrases. rewrite length_map. apply firstn_le_length. Qed.

Lemma missing_len (modelAnswer studentAnswer : jsstring) (limit : nat) :
  length (missingKeywords modelAnswer studentAnswer limit) <= limit.
Proof. unfold missingKeywords. rewrite length_map. apply firstn_le_length. Qed.

(** X14. The missing keywords: at most [limit] of them, no keyword twice,
    each a token of the model answer of five characters or more that is no
    token of the student answer, the more frequent in the model answer first;
    an answer misses none of its own keywords. *)
Theorem missing_keywords_spec (modelAnswer studentAnswer : jsstring) (limit : nat) :
  let ks := missingKeywords modelAnswer studentAnswer limit in
  length ks <= limit
  /\ NoDup ks
  /\ (forall k, In k ks ->
        In k (tokenize modelAnswer) /\ 5 <= length k /\ ~ In k (tokenize studentAnswer))
  /\ StronglySorted
       (fun a b => countOf b (tokenize modelAnswer) <= countOf a (tokenize modelAnswer)) ks
  /\ missingKeywords modelAnswer modelAnswer limit = [].
Proof.
  cbv zeta. unfold missingKeywords. cbv zeta.
  destruct (top_long_tokens modelAnswer
              (fun e => negb (existsb (Js.eqb (fst e)) (Js.setOf (tokenize studentAnswer)))) limit)
    as (H1 & H2 & H3 & H4).
  split; [exact H1|]. split; [exact H2|]. split; [|split; [exact H4|]].
  - intros k Hk. destruct (H3 k Hk) as (Hin & Hlen & Hkeep).
    split; [exact Hin|]. split; [exact Hlen|].
    simpl in Hkeep. apply negb_true_iff in Hkeep. intros Hs.
    apply in_setOf in Hs. congruence.
  - rewrite filter_none; [simpl; now rewrite firstn_nil|].
    intros [k v] He. apply termFreq_entry in He. destruct He as [_ Hk].
    apply filter_In in Hk. destruct Hk as [Hk _]. simpl.
    apply negb_false_iff. now apply in_setOf.
Qed.

(** X15. The weak areas of an evaluation: at most ten, none twice, each
    a weak area of one of its questions; a question has at most six. *)
Theorem weak_areas_spec (modelQa studentQa : list QaPair) (maxMarksPerQuestion : R) :
  let ev := gradeSubmissionHeuristic modelQa studentQa maxMarksPerQuestion in
  length (weakAreas ev) <= 10
  /\ NoDup (weakAreas ev)
  /\ (forall a, In a (weakAreas ev) ->
        exists q, In q (questions ev) /\ In a (q_weakAreas q))
  /\ (forall q, In q (questions ev) -> length (q_weakAreas q) <= 6).
Proof.
  cbv zeta. unfold gradeSubmissionHeuristic. cbv zeta. simpl.
  set (qs := map _ _). unfold aggregateWeakAreas.
  destruct (top_entries (termFreq (flat_map q_weakAreas qs)) 10) as (H1 & H2 & H3 & _).
  split; [now rewrite length_map|]. split; [apply H3, termFreq_keys|]. split.
  - intros a Ha. apply in_map_iff in Ha. destruct Ha as ([k v] & <- & He). simpl.
    apply H2, termFreq_entry in He. destruct He as [_ Hk].
    apply in_flat_map in Hk. exact Hk.
  - intros q Hq. unfold qs in Hq. apply in_map_iff in Hq. destruct Hq as (id & <- & _).
    unfold gradeQuestion. cbv zeta.
    destruct (isEmpty (textOf _ id)).
    + simpl. destruct (isEmpty _); [simpl; lia|apply key_phrases_len].
    + destruct (isEmpty _); simpl; [lia|apply missing_len].
Qed.

(** *** Marks and deductions *)

Local Open Scope R_scope.






(** *** Answers without a common token *)







(** *** Totals *)





Local Close Scope R_scope.

(** *** Grading what the segmenter gives *)

Lemma sort_numeric_ids (ids : list jsstring) :
  (forall id, In id ids -> exists n, Js.Number id = Some n) ->
  StronglySorted (fun a b => QaFacts.numLe (Js.Number a) (Js.Number b))
    (Js.sort byNumericId ids).
Proof.
  intros Hnum.
  set (key := fun id => match Js.Number id with Some n => n | None => 0%Z end).
  rewrite (@JsFacts.sort_ext _ byNumericId (fun a b => Some (key a - key b)%Z)).
  - apply QaFacts.StronglySorted_weaken with (R := JsFacts.keyLe key);
      [|now apply JsFacts.sort_sorted].
    intros a b Ha Hb. apply JsFacts.sort_In in Ha, Hb.
    destruct (Hnum a Ha) as [x Hx], (Hnum b Hb) as [y Hy].
    unfold JsFacts.keyLe, key. now rewrite Hx, Hy.
  - intros a b Ha Hb. destruct (Hnum a Ha) as [x Hx], (Hnum b Hb) as [y Hy].
    unfold byNumericId, key. now rewrite Hx, Hy.
Qed.

(** X19. When the model text and the student text are segmented by
    [extractQaPairs] and then graded, the questions of the evaluation come in
    the ascending order of their numbers, one for each id found in either
    text. *)
Theorem graded_in_question_order (modelText studentText : jsstring)
    (maxMarksPerQuestion : R) :
  let ev := gradeSubmissionHeuristic (extractQaPairs modelText) (extractQaPairs studentText)
              maxMarksPerQuestion in
  StronglySorted (fun a b => QaFacts.numLe (Js.Number a) (Js.Number b))
    (map q_questionId (questions ev))
  /\ (forall id, In id (map q_questionId (questions ev))
        <-> In id (map questionId (extractQaPairs modelText))
            \/ In id (map questionId (extractQaPairs studentText))).
Proof.
  cbv zeta. rewrite questions_ids.
  assert (Hin : forall id,
            In id (Js.setOf (Js.keys (Js.ofEntries (entries (extractQaPairs modelText)))
                             ++ Js.keys (Js.ofEntries (entries (extractQaPairs studentText)))))
            <-> In id (map questionId (extractQaPairs modelText))
                \/ In id (map questionId (extractQaPairs studentText))).
  { intros id. rewrite (proj2 (JsFacts.setOf_spec _) id), in_app_iff, !keys_ofEntries. tauto. }
  split.
  - apply sort_numeric_ids. intros id Hid. apply Hin in Hid.
    destruct Hid as [Hid|Hid]; apply in_map_iff in Hid; destruct Hid as (p & <- & Hp);
      destruct (QaExtra.result_id_digits _ _ Hp) as (_ & _ & n & Hn & _); eauto.
  - intros id. rewrite JsFacts.sort_In. apply Hin.
Qed.

(** *** Letter case *)

Lemma toLower_space (c : ascii) : Chr.isSpace (Chr.toLower c) = Chr.isSpace c.
Proof. destruct c as [[] [] [] [] [] [] [] []]; reflexivity. Qed.

Lemma dropWhile_lower (s : jsstring) :
  Js.dropWhile Chr.isSpace (Js.toLowerCase s) = Js.toLowerCase (Js.dropWhile Chr.isSpace s).
Proof.
  unfold Js.toLowerCase. induction s as [|c s IH]; simpl; [reflexivity|].
  rewrite toLower_space. destruct (Chr.isSpace c); [exact IH|reflexivity].
Qed.

Lemma rev_lower (s : jsstring) : rev (Js.toLowerCase s) = Js.toLowerCase (rev s).
Proof. unfold Js.toLowerCase. symmetry. apply map_rev. Qed.

Lemma trim_lower (s : jsstring) : Js.trim (Js.toLowerCase s) = Js.toLowerCase (Js.trim s).
Proof.
  unfold Js.trim, Js.trimStart, Js.trimEnd.
  now rewrite dropWhile_lower, rev_lower, dropWhile_lower, rev_lower.
Qed.

Lemma tokenize_lower (s : jsstring) : tokenize (Js.toLowerCase s) = tokenize s.
Proof. unfold tokenize. now rewrite toLowerCase_idempotent. Qed.

(** The spans with their texts in lower case. *)
Definition lowerTexts (qa : list QaPair) : list QaPair :=
  map (fun p => mkQaPair (questionId p) (Js.toLowerCase (text p))) qa.

Definition lowerValues (m : Js.jsmap jsstring) : Js.jsmap jsstring :=
  map (fun e => (fst e, Js.toLowerCase (snd e))) m.

Lemma set_lowerValues (m : Js.jsmap jsstring) (k v : jsstring) :
  Js.set (lowerValues m) k (Js.toLowerCase v) = lowerValues (Js.set m k v).
Proof.
  induction m as [|[k0 v0] m IH]; simpl; [reflexivity|].
  destruct (Js.eqb k0 k); simpl; [reflexivity|]. now rewrite IH.
Qed.

Lemma ofEntries_lower (qa : list QaPair) :
  Js.ofEntries (entries (lowerTexts qa)) = lowerValues (Js.ofEntries (entries qa)).
Proof.
  unfold Js.ofEntries.
  change (@nil (jsstring * jsstring)) with (lowerValues []) at 1.
  generalize (@nil (jsstring * jsstring)).
  induction qa as [|p qa IH]; intros m; simpl; [reflexivity|].
  rewrite set_lowerValues. apply IH.
Qed.

Lemma textOf_lower (m : Js.jsmap jsstring) (id : jsstring) :
  textOf (lowerValues m) id = Js.toLowerCase (textOf m id).
Proof.
  unfold textOf. rewrite <- trim_lower. f_equal.
  induction m as [|[k v] m IH]; simpl; [reflexivity|].
  destruct (Js.eqb k id); [reflexivity|exact IH].
Qed.

Lemma keys_lowerValues (m : Js.jsmap jsstring) : Js.keys (lowerValues m) = Js.keys m.
Proof. unfold Js.keys, lowerValues. rewrite map_map. reflexivity. Qed.

Lemma isEmpty_lower (s : jsstring) : isEmpty (Js.toLowerCase s) = isEmpty s.
Proof. now destruct s. Qed.

Lemma gradeQuestion_lower (mm sm : Js.jsmap jsstring) (mx : R) (id : jsstring) :
  gradeQuestion (lowerValues mm) (lowerValues sm) mx id = gradeQuestion mm sm mx id.
Proof.
  unfold gradeQuestion. rewrite !textOf_lower, !isEmpty_lower.
  unfold cosineSimilarity, missingKeywords, extractKeyPhrases.
  now rewrite !tokenize_lower.
Qed.

(** X20. Grading ignores letter case: putting the answers of both sides
    in lower case gives the same evaluation, marks, feedback and weak areas
    included. *)
Theorem grading_ignores_case (modelQa studentQa : list QaPair) (maxMarksPerQuestion : R) :
  gradeSubmissionHeuristic (lowerTexts modelQa) (lowerTexts studentQa) maxMarksPerQuestion
  = gradeSubmissionHeuristic modelQa studentQa maxMarksPerQuestion.
Proof.
  unfold gradeSubmissionHeuristic. rewrite !ofEntries_lower, !keys_lowerValues.
  cbv zeta.
  rewrite (map_ext _ _ (gradeQuestion_lower (Js.ofEntries (entries modelQa))
                          (Js.ofEntries (entries studentQa)) maxMarksPerQuestion)).
  reflexivity.
Qed.

End GradingExtra.

(** ** The text extraction of uploads *)
Module UploadFacts.
Import Regex RegexFacts TextFacts ExtractText.

(** *** [normalizeText] *)

(** [s] continues with blanks and tabs up to a line feed. *)
Fixpoint blanksThenNl (s : jsstring) : bool :=
  match s with
  | c :: r => if Chr.eqb Chr.LF c then true else if isBlank c then blanksThenNl r else false
  | [] => false
  end.

(** What the second replacement comes to: a blank or tab goes when only
    blanks and tabs lie between it and the next line feed. *)
Fixpoint strip (s : jsstring) : jsstring :=
  match s with
  | c :: r => if isBlank c && blanksThenNl r then strip r else c :: strip r
  | [] => []
  end.

Definition allBlank (w : jsstring) : Prop := Forall (fun c => isBlank c = true) w.

Lemma LF_not_blank : isBlank Chr.LF = false.
Proof. reflexivity. Qed.

Lemma eqb_LF (c : ascii) : Chr.eqb Chr.LF c = true -> c = Chr.LF.
Proof. unfold Chr.eqb. intros H. apply Ascii.eqb_eq in H. now symmetry. Qed.

Lemma blank_not_LF (c : ascii) : isBlank c = true -> Chr.eqb Chr.LF c = false.
Proof.
  intros H. destruct (Chr.eqb Chr.LF c) eqn:E; [|reflexivity].
  apply eqb_LF in E. subst c. discriminate.
Qed.

Lemma blank_is_space (c : ascii) : isBlank c = true -> Chr.isSpace c = true.
Proof.
  unfold isBlank, Chr.isSpace, Chr.isCode, Chr.inRange. intros H.
  apply orb_true_iff in H. destruct H as [H|H]; apply Nat.eqb_eq in H; rewrite H; reflexivity.
Qed.

Lemma blanksThenNl_run (w rest : jsstring) :
  allBlank w -> blanksThenNl (w ++ Chr.LF :: rest) = true.
Proof.
  induction 1 as [|c w Hc _ IH]; [reflexivity|].
  cbn [app blanksThenNl]. now rewrite (blank_not_LF _ Hc), Hc.
Qed.

Lemma blanksThenNl_inv (s : jsstring) :
  blanksThenNl s = true -> exists w rest, s = w ++ Chr.LF :: rest /\ allBlank w.
Proof.
  induction s as [|c s IH]; [discriminate|]. cbn [blanksThenNl].
  destruct (Chr.eqb Chr.LF c) eqn:E.
  - intros _. apply eqb_LF in E. subst c. exists [], s. split; [reflexivity|constructor].
  - destruct (isBlank c) eqn:Eb; [|discriminate].
    intros H. destruct (IH H) as (w & rest & -> & Hw).
    exists (c :: w), rest. split; [reflexivity|now constructor].
Qed.

Lemma strip_run (w rest : jsstring) :
  allBlank w -> strip (w ++ Chr.LF :: rest) = Chr.LF :: strip rest.
Proof.
  induction 1 as [|c w Hc Hw IH]; [reflexivity|].
  cbn [app strip]. now rewrite Hc, (blanksThenNl_run rest Hw).
Qed.

(** The loop over a class reads a run that ends before [t], when the rest of
    the pattern matches there. *)
Lemma star_run (p : ascii -> bool) (k : mstate -> option mstate) (w t : jsstring) :
  forall l cs out,
  Forall (fun c => p c = true) w -> stopsAt p t ->
  k (MState (rev w ++ l) t cs) = Some out ->
  star p k l (w ++ t) cs = Some out.
Proof.
  induction w as [|c w IH]; intros l cs out Hw Ht Hk.
  - simpl in *. destruct t as [|c t]; simpl; [exact Hk|].
    simpl in Ht. now rewrite Ht.
  - inversion Hw as [|? ? Hc Hw']; subst. simpl. rewrite Hc.
    rewrite (IH (c :: l) cs out Hw' Ht); [reflexivity|].
    simpl in Hk. now rewrite <- app_assoc in Hk.
Qed.

(** The pattern matches where a blank or tab starts a run that reaches a
    line feed, and takes the run with its line feed. *)
Lemma execAt_run (l : jsstring) (b : ascii) (w rest : jsstring) :
  isBlank b = true -> allBlank w ->
  execAt reBlanksNewline l (b :: w ++ Chr.LF :: rest)
  = Some (RMatch (length l) (b :: w ++ [Chr.LF]) []).
Proof.
  intros Hb Hw. unfold execAt, reBlanksNewline.
  cbn [exec after before caps]. rewrite Hb.
  cbn [exec after before caps].
  rewrite (@star_run isBlank _ w (Chr.LF :: rest) (b :: l) []
             (MState (Chr.LF :: rev w ++ b :: l) rest [])).
  - f_equal. f_equal.
    replace (Chr.LF :: rev w ++ b :: l) with (rev (b :: w ++ [Chr.LF]) ++ l).
    + apply (consumed_app l (b :: w ++ [Chr.LF]) (b :: w ++ Chr.LF :: rest) rest [] []).
    + simpl. rewrite rev_app_distr. simpl. now rewrite <- app_assoc.
  - exact Hw.
  - exact LF_not_blank.
  - reflexivity.
Qed.

Lemma execAt_shape (l r : jsstring) (m : rmatch) :
  execAt reBlanksNewline l r = Some m ->
  exists b w rest, r = b :: w ++ Chr.LF :: rest /\ isBlank b = true /\ allBlank w.
Proof.
  intros H. destruct (execAt_sound _ _ _ H) as (rest & Hr & _ & _ & Hm).
  unfold reBlanksNewline in Hm.
  inversion Hm as [| |? ? w1 w23 ? ? ? M1 M23| | | | | | | | |]; subst.
  inversion M1; subst.
  inversion M23 as [| |? ? w2 w3 ? ? ? M2 M3| | | | | | | | |]; subst.
  inversion M2; subst. inversion M3; subst.
  match goal with H : Chr.eqb Chr.LF _ = true |- _ => apply eqb_LF in H; subst end.
  exists c, w2, rest. split; [|split; assumption].
  match goal with H : _ = whole m |- _ => rewrite <- H end.
  simpl. now rewrite <- app_assoc.
Qed.

Lemma execAt_none (l : jsstring) (c : ascii) (r : jsstring) :
  isBlank c && blanksThenNl r = false -> execAt reBlanksNewline l (c :: r) = None.
Proof.
  intros Hno. destruct (execAt reBlanksNewline l (c :: r)) as [m|] eqn:E; [|reflexivity].
  destruct (execAt_shape _ _ E) as (b & w & rest & [= -> ->] & Hb & Hw).
  now rewrite Hb, (blanksThenNl_run rest Hw) in Hno.
Qed.

(** Passing over the rest of a match. *)
Lemma replaceScan_skip (re : regex) (rep : jsstring) (w rest : jsstring) :
  forall l, replaceScan re rep l (w ++ rest) (length w) = replaceScan re rep (rev w ++ l) rest 0.
Proof.
  induction w as [|c w IH]; intros l; [reflexivity|].
  simpl. rewrite IH. now rewrite <- app_assoc.
Qed.

Lemma replaceScan_strip (n : nat) :
  forall r l, length r <= n -> replaceScan reBlanksNewline [Chr.LF] l r 0 = strip r.
Proof.
  induction n as [|n IH]; intros r l Hlen.
  - destruct r; [reflexivity|simpl in Hlen; lia].
  - destruct r as [|c r]; [reflexivity|].
    cbn [strip]. destruct (isBlank c && blanksThenNl r) eqn:E.
    + apply andb_true_iff in E. destruct E as [Hc Hr].
      destruct (blanksThenNl_inv _ Hr) as (w & rest & -> & Hw).
      cbn [replaceScan]. rewrite (@execAt_run l c w rest Hc Hw).
      cbn [whole length app].
      replace (w ++ Chr.LF :: rest) with ((w ++ [Chr.LF]) ++ rest)
        by (now rewrite <- app_assoc).
      rewrite replaceScan_skip. rewrite <- app_assoc. cbn [app].
      rewrite (strip_run rest Hw). f_equal. apply IH.
      simpl in Hlen. rewrite length_app in Hlen. simpl in Hlen. lia.
    + cbn [replaceScan]. rewrite (@execAt_none l c r E). f_equal. apply IH.
      simpl in Hlen. lia.
Qed.

Lemma replaceAll_strip (s : jsstring) : replaceAll reBlanksNewline [Chr.LF] s = strip s.
Proof. apply (replaceScan_strip (n := length s)). lia. Qed.

(** The characters of [s] that are not white space. *)
Definition visible (s : jsstring) : jsstring := filter (fun c => negb (Chr.isSpace c)) s.

Lemma visible_app (a b : jsstring) : visible (a ++ b) = visible a ++ visible b.
Proof. apply filter_app. Qed.

Lemma visible_space (w : jsstring) : Forall (fun c => Chr.isSpace c = true) w -> visible w = [].
Proof.
  induction 1 as [|c w Hc _ IH]; [reflexivity|].
  unfold visible in *. simpl. now rewrite Hc.
Qed.

Lemma visible_strip (s : jsstring) : visible (strip s) = visible s.
Proof.
  induction s as [|c s IH]; [reflexivity|]. cbn [strip].
  destruct (isBlank c && blanksThenNl s) eqn:E.
  - apply andb_true_iff in E. destruct E as [Hc _].
    unfold visible in *. simpl. now rewrite (blank_is_space _ Hc).
  - unfold visible in *. simpl. now rewrite IH.
Qed.

Lemma visible_replaceCRLF (n : nat) :
  forall s, length s <= n -> visible (Js.replaceCRLF s) = visible s.
Proof.
  induction n as [|n IH]; intros s Hlen.
  - destruct s; [reflexivity|simpl in Hlen; lia].
  - destruct s as [|c [|d s]]; [reflexivity|reflexivity|].
    cbn [Js.replaceCRLF].
    destruct (Chr.isCode 13 c && Chr.isCode 10 d) eqn:E.
    + apply andb_true_iff in E. destruct E as [Hc Hd].
      unfold Chr.isCode in Hc, Hd. apply Nat.eqb_eq in Hc, Hd.
      assert (Sc : Chr.isSpace c = true)
        by (unfold Chr.isSpace, Chr.inRange, Chr.isCode; now rewrite Hc).
      assert (Sd : Chr.isSpace d = true)
        by (unfold Chr.isSpace, Chr.inRange, Chr.isCode; now rewrite Hd).
      change (visible (Chr.LF :: Js.replaceCRLF s) = visible (c :: d :: s)).
      unfold visible at 1 2. cbn [filter]. rewrite Sc, Sd. cbn [negb].
      change (Chr.isSpace Chr.LF) with true. cbn [negb].
      apply IH. simpl in Hlen. lia.
    + change (visible (c :: Js.replaceCRLF (d :: s)) = visible (c :: d :: s)).
      unfold visible at 1 2. cbn [filter].
      fold (visible (Js.replaceCRLF (d :: s))). fold (visible (d :: s)).
      rewrite IH; [reflexivity|]. simpl in Hlen |- *. lia.
Qed.

Lemma visible_dropWhile (s : jsstring) : visible (Js.dropWhile Chr.isSpace s) = visible s.
Proof.
  destruct (dropWhile_split Chr.isSpace s) as (pre & Hs & Hp).
  rewrite Hs at 2. rewrite visible_app, (visible_space Hp). reflexivity.
Qed.

Lemma visible_rev (s : jsstring) : visible (rev s) = rev (visible s).
Proof.
  induction s as [|c s IH]; [reflexivity|].
  simpl. rewrite visible_app, IH. unfold visible. simpl.
  destruct (negb (Chr.isSpace c)); simpl; [reflexivity|now rewrite app_nil_r].
Qed.

Lemma visible_trim (s : jsstring) : visible (Js.trim s) = visible s.
Proof.
  unfold Js.trim, Js.trimEnd, Js.trimStart.
  now rewrite visible_rev, visible_dropWhile, visible_rev, rev_involutive, visible_dropWhile.
Qed.

Lemma visible_normalizeText (s : jsstring) : visible (normalizeText s) = visible s.
Proof.
  unfold normalizeText.
  rewrite visible_trim, replaceAll_strip, visible_strip.
  apply (visible_replaceCRLF (n := length s)). lia.
Qed.

(** No line feed of [s] comes right after a blank or a tab. *)
Definition noBlankBeforeNl (s : jsstring) : Prop :=
  forall pre b rest, s = pre ++ b :: Chr.LF :: rest -> isBlank b = false.

Lemma strip_head (s : jsstring) (rest : jsstring) :
  strip s = Chr.LF :: rest -> blanksThenNl s = true.
Proof.
  induction s as [|c s IH]; [discriminate|]. cbn [strip blanksThenNl].
  destruct (isBlank c && blanksThenNl s) eqn:E.
  - intros H. apply andb_true_iff in E. destruct E as [Hc Hs].
    now rewrite (blank_not_LF _ Hc), Hc.
  - intros [= -> _]. reflexivity.
Qed.

Lemma strip_tidy (s : jsstring) : noBlankBeforeNl (strip s).
Proof.
  induction s as [|c s IH]; intros pre b rest.
  - destruct pre; discriminate.
  - cbn [strip]. destruct (isBlank c && blanksThenNl s) eqn:E; [apply IH|].
    destruct pre as [|p pre]; simpl.
    + intros [= -> Hs]. apply strip_head in Hs.
      rewrite Hs, andb_true_r in E. exact E.
    + intros [= _ Hs]. eapply IH. exact Hs.
Qed.

Lemma piece_tidy (a s z : jsstring) : noBlankBeforeNl (a ++ s ++ z) -> noBlankBeforeNl s.
Proof.
  intros H pre b rest ->. apply (H (a ++ pre) b (rest ++ z)).
  now rewrite <- !app_assoc.
Qed.

Lemma code_eq (n : nat) (c : ascii) : n < 256 -> Chr.isCode n c = true -> c = ascii_of_nat n.
Proof.
  unfold Chr.isCode, Chr.code. intros _ H. apply Nat.eqb_eq in H.
  rewrite <- H. symmetry. apply ascii_nat_embedding.
Qed.

(** [s] has no carriage return right before a line feed. *)
Definition noCRLF (s : jsstring) : Prop :=
  forall pre rest, s <> pre ++ Chr.CR :: Chr.LF :: rest.

Lemma noCRLF_tail (c : ascii) (s : jsstring) : noCRLF (c :: s) -> noCRLF s.
Proof. intros H pre rest ->. exact (H (c :: pre) rest eq_refl). Qed.

Lemma replaceCRLF_id (s : jsstring) : noCRLF s -> Js.replaceCRLF s = s.
Proof.
  induction s as [|c s IH]; intros H; [reflexivity|].
  destruct s as [|d s]; [reflexivity|].
  cbn [Js.replaceCRLF].
  destruct (Chr.isCode 13 c && Chr.isCode 10 d) eqn:E.
  - apply andb_true_iff in E. destruct E as [Hc Hd].
    apply code_eq in Hc, Hd; try lia. subst c d.
    exfalso. exact (H [] s eq_refl).
  - f_equal. apply IH. exact (noCRLF_tail H).
Qed.

Lemma tidy_tail (c : ascii) (s : jsstring) : noBlankBeforeNl (c :: s) -> noBlankBeforeNl s.
Proof. intros H pre b rest ->. exact (H (c :: pre) b rest eq_refl). Qed.

Lemma tidy_head (c : ascii) (s : jsstring) :
  noBlankBeforeNl (c :: s) -> isBlank c = true -> blanksThenNl s = false.
Proof.
  revert c. induction s as [|d s IH]; intros c H Hc; [reflexivity|].
  cbn [blanksThenNl]. destruct (Chr.eqb Chr.LF d) eqn:E.
  - apply eqb_LF in E. subst d. rewrite (H [] c s eq_refl) in Hc. discriminate.
  - destruct (isBlank d) eqn:Ed; [|reflexivity].
    apply (IH d); [exact (tidy_tail H)|exact Ed].
Qed.

Lemma strip_id (s : jsstring) : noBlankBeforeNl s -> strip s = s.
Proof.
  induction s as [|c s IH]; intros H; [reflexivity|]. cbn [strip].
  destruct (isBlank c) eqn:Ec.
  - rewrite (tidy_head H Ec). cbn [andb]. f_equal. apply IH. exact (tidy_tail H).
  - cbn [andb]. f_equal. apply IH. exact (tidy_tail H).
Qed.

(** Two checks that run, for texts given in full. *)
Fixpoint hasCRLF (s : jsstring) : bool :=
  match s with
  | c :: r =>
      match r with
      | d :: _ => (Chr.eqb Chr.CR c && Chr.eqb Chr.LF d) || hasCRLF r
      | [] => false
      end
  | [] => false
  end.

Fixpoint hasBlankNl (s : jsstring) : bool :=
  match s with
  | c :: r =>
      match r with
      | d :: _ => (isBlank c && Chr.eqb Chr.LF d) || hasBlankNl r
      | [] => false
      end
  | [] => false
  end.

Lemma hasCRLF_found (pre rest : jsstring) : hasCRLF (pre ++ Chr.CR :: Chr.LF :: rest) = true.
Proof.
  induction pre as [|c pre IH]; [reflexivity|].
  cbn [app hasCRLF]. destruct (pre ++ Chr.CR :: Chr.LF :: rest) eqn:E.
  - destruct pre; discriminate E.
  - rewrite IH. apply orb_true_r.
Qed.

Lemma noCRLF_check (s : jsstring) : hasCRLF s = false -> noCRLF s.
Proof. intros H pre rest ->. rewrite hasCRLF_found in H. discriminate. Qed.

Lemma hasBlankNl_found (pre : jsstring) (b : ascii) (rest : jsstring) :
  isBlank b = true -> hasBlankNl (pre ++ b :: Chr.LF :: rest) = true.
Proof.
  intros Hb. induction pre as [|c pre IH].
  - cbn [app hasBlankNl]. rewrite Hb. reflexivity.
  - cbn [app hasBlankNl]. destruct (pre ++ b :: Chr.LF :: rest) eqn:E.
    + destruct pre; discriminate E.
    + rewrite IH. apply orb_true_r.
Qed.

Lemma noBlankBeforeNl_check (s : jsstring) : hasBlankNl s = false -> noBlankBeforeNl s.
Proof.
  intros H pre b rest ->. destruct (isBlank b) eqn:Hb; [|reflexivity].
  rewrite (@hasBlankNl_found pre b rest Hb) in H. discriminate.
Qed.

(** X21. [normalizeText] touches white space only: the characters of its
    result that are not white space are those of the text, in their order.
    The result has no white space at either end, and none of its line feeds
    comes right after a blank or a tab. *)
Theorem normalizeText_spec (s : jsstring) :
  visible (normalizeText s) = visible s
  /\ trimmed (normalizeText s)
  /\ noBlankBeforeNl (normalizeText s).
Proof.
  split; [apply visible_normalizeText|]. split; [apply trim_trimmed|].
  unfold normalizeText. rewrite replaceAll_strip.
  destruct (trim_piece (strip (Js.replaceCRLF s))) as (a & z & Hs & _ & _).
  apply (@piece_tidy a _ z). rewrite <- Hs. apply strip_tidy.
Qed.

(** X22. A text that is clean already (no white space at its ends, no
    carriage return before a line feed, no blank or tab before a line feed)
    is what [normalizeText] gives back for it. *)
Theorem normalizeText_fixed (s : jsstring) :
  trimmed s -> noCRLF s -> noBlankBeforeNl s -> normalizeText s = s.
Proof.
  intros Ht Hc Hb. unfold normalizeText.
  rewrite (replaceCRLF_id Hc), replaceAll_strip, (strip_id Hb).
  now apply trimmed_trim.
Qed.

Lemma normalizeText_fixed_witness :
  normalizeText (str "Q1: a" ++ Chr.LF :: str "Q2: b") = str "Q1: a" ++ Chr.LF :: str "Q2: b".
Proof.
  apply (@normalizeText_fixed (str "Q1: a" ++ Chr.LF :: str "Q2: b")).
  - split; reflexivity.
  - apply noCRLF_check. reflexivity.
  - apply noBlankBeforeNl_check. reflexivity.
Defined.

Lemma visible_nil (s : jsstring) : visible s = [] -> Js.dropWhile Chr.isSpace s = [].
Proof.
  induction s as [|c s IH]; [reflexivity|]. unfold visible in *. simpl.
  destruct (Chr.isSpace c); simpl; [exact IH|discriminate].
Qed.

Lemma normalizeText_nonempty (s : jsstring) : Js.trim s <> [] -> normalizeText s <> [].
Proof.
  intros Hs Hn. apply Hs.
  assert (Hv : visible s = []) by (now rewrite <- visible_normalizeText, Hn).
  unfold Js.trim, Js.trimStart. now rewrite (visible_nil _ Hv).
Qed.

(** *** [extractTextFromUpload] *)

(** The two constants the function computes first. *)
Definition providerOf (w : World) : jsstring :=
  orElse (ofOption (OCR_PROVIDER w)) (str "pdf_text").

Definition mimeOf (w : World) (mimetype : jsstring) : jsstring :=
  orElse (ofOption (detected w)) (orElse mimetype (str "application/octet-stream")).

(** The files the function hands to an OCR call. *)
Definition usesOcr (w : World) (mimetype : jsstring) : bool :=
  let m := mimeOf w mimetype in
  negb (Js.eqb m (str "application/pdf") || Js.eqb m (str "image/heic")
        || Js.eqb m (str "image/heif"))
  && (Js.eqb (providerOf w) (str "google_vision") || Js.eqb (providerOf w) (str "tesseract")).

(** The same world with other outcomes of the two OCR calls. *)
Definition withOcr (w : World) (g t : OcrOutcome) : World :=
  mkWorld (OCR_PROVIDER w) (detected w) (pdfParse w) g t.

Lemma pushIf_nonempty (b : bool) (s : string) (ws : list jsstring) :
  ws <> [] -> pushIf b s ws <> [].
Proof. unfold pushIf. destruct b; [|auto]. intros _ H. now apply app_eq_nil in H as [_ ?]. Qed.

Lemma snoc_nonempty (ws : list jsstring) (x : jsstring) : ws ++ [x] <> [].
Proof. intros H. now apply app_eq_nil in H as [_ ?]. Qed.

Lemma pushIf_true (s : string) (ws : list jsstring) : pushIf true s ws <> [].
Proof. apply snoc_nonempty. Qed.

Lemma trimmed_nil : trimmed [].
Proof. split; exact I. Qed.

Lemma ocr_result (m t : jsstring) (s : string) (r : TextExtractionResult) :
  let text := normalizeText t in
  let ws := pushIf (Js.eqb m (str "application/octet-stream"))
              "Unknown file type. If this is an iPhone HEIC photo, convert to JPG/PNG and retry." [] in
  mkResult text (pushIf (GradingHeuristic.isEmpty text) s ws) m = r ->
  mime r = m
  /\ trimmed (ExtractText.text r)
  /\ (ExtractText.text r = [] -> warnings r <> [])
  /\ (warnings r <> [] ->
      ExtractText.text r = [] \/ mime r = str "application/octet-stream").
Proof.
  intros text ws <-. cbn [mime ExtractText.text warnings].
  split; [reflexivity|]. split; [apply trim_trimmed|]. split.
  - intros ->. apply pushIf_true.
  - destruct text as [|c text']; [now left|]. cbn [GradingHeuristic.isEmpty pushIf].
    subst ws. destruct (Js.eqb m _) eqn:E; cbn [pushIf].
    + intros _. right. now apply JsFacts.eqb_eq.
    + intros H. now contradiction H.
Qed.

(** X23. What a call that returns gives: the MIME type is the detected one,
    else the declared one, else [application/octet-stream]; the text has no
    white space at its ends; an empty text always comes with a warning; and a
    text that is not empty comes with none, but for the warning of an unknown
    file type. *)
Theorem upload_text_and_warnings (w : World) (mimetype : jsstring) (r : TextExtractionResult) :
  extractTextFromUpload w mimetype = Some r ->
  mime r = mimeOf w mimetype
  /\ trimmed (text r)
  /\ (text r = [] -> warnings r <> [])
  /\ (warnings r <> [] -> text r = [] \/ mime r = str "application/octet-stream").
Proof.
  unfold extractTextFromUpload. cbv zeta.
  fold (mimeOf w mimetype). fold (providerOf w).
  set (m := mimeOf w mimetype). set (p := providerOf w).
  assert (Hempty : forall ws, ws <> [] ->
            mime (mkResult [] ws m) = m
            /\ trimmed (text (mkResult [] ws m))
            /\ (text (mkResult [] ws m) = [] -> warnings (mkResult [] ws m) <> [])
            /\ (warnings (mkResult [] ws m) <> [] ->
                text (mkResult [] ws m) = [] \/ mime (mkResult [] ws m) = str "application/octet-stream")).
  { intros ws Hws. cbn [mime text warnings].
    split; [reflexivity|]. split; [exact trimmed_nil|]. split; [now intros _|now left]. }
  destruct (Js.eqb m (str "application/pdf")).
  - destruct (pdfParse w) as [parsed|msg details].
    + destruct (Js.trim parsed) as [|c t] eqn:Et.
      * intros [= <-]. apply Hempty. do 2 apply pushIf_nonempty. discriminate.
      * intros [= <-]. cbn [mime text warnings].
        split; [reflexivity|]. split; [apply trim_trimmed|]. split.
        -- intros Hn. exfalso. revert Hn. apply normalizeText_nonempty. now rewrite Et.
        -- intros H. now contradiction H.
    + intros [= <-]. apply Hempty. discriminate.
  - destruct (Js.eqb m (str "image/heic") || Js.eqb m (str "image/heif")).
    + intros [= <-]. apply Hempty. apply snoc_nonempty.
    + destruct (Js.eqb p (str "google_vision")).
      * destruct (googleVision w) as [t|]; [|discriminate].
        intros [= H]. exact (@ocr_result m t _ r H).
      * destruct (Js.eqb p (str "tesseract")).
        -- destruct (tesseract w) as [t|]; [|discriminate].
           intros [= H]. exact (@ocr_result m t _ r H).
        -- intros [= <-]. apply Hempty. apply snoc_nonempty.
Qed.

Lemma upload_text_and_warnings_witness :
  let r := mkResult (str "Q1: a") [] (str "application/pdf") in
  mime r = str "application/pdf"
  /\ trimmed (text r)
  /\ (text r = [] -> warnings r <> [])
  /\ (warnings r <> [] -> text r = [] \/ mime r = str "application/octet-stream").
Proof.
  apply (@upload_text_and_warnings
           (mkWorld None (Some (str "application/pdf")) (PdfParsed (str " Q1: a  ")) OcrThrows OcrThrows)
           (str "text/plain")).
  reflexivity.
Defined.

(** X24. The OCR calls matter for images only, and only the configured one:
    a PDF, a HEIC or HEIF image, and any file when [OCR_PROVIDER] names
    neither OCR, get a result that no outcome of the OCR calls changes.  The
    function fails only where it uses OCR and the configured call fails. *)
Theorem ocr_only_for_images (w : World) (mimetype : jsstring) :
  (usesOcr w mimetype = false ->
   exists r, forall g t, extractTextFromUpload (withOcr w g t) mimetype = Some r)
  /\ (extractTextFromUpload w mimetype = None ->
      usesOcr w mimetype = true
      /\ (providerOf w = str "google_vision" /\ googleVision w = OcrThrows
          \/ providerOf w = str "tesseract" /\ tesseract w = OcrThrows)).
Proof.
  unfold usesOcr, extractTextFromUpload, withOcr. cbv zeta.
  cbn [OCR_PROVIDER detected pdfParse googleVision tesseract].
  fold (mimeOf w mimetype). fold (providerOf w).
  change (orElse (ofOption (detected (mkWorld (OCR_PROVIDER w) (detected w) (pdfParse w) OcrThrows OcrThrows)))
            (orElse mimetype (str "application/octet-stream")))
    with (mimeOf w mimetype).
  set (m := mimeOf w mimetype). set (p := providerOf w).
  destruct (Js.eqb m (str "application/pdf")); cbn [orb negb andb].
  - split; [intros _|].
    + destruct (pdfParse w) as [parsed|msg details]; [destruct (Js.trim parsed)|]; eauto.
    + destruct (pdfParse w) as [parsed|msg details]; [destruct (Js.trim parsed)|]; discriminate.
  - destruct (Js.eqb m (str "image/heic") || Js.eqb m (str "image/heif")); cbn [orb negb andb].
    + split; [eauto|discriminate].
    + destruct (Js.eqb p (str "google_vision")) eqn:Eg; cbn [orb negb andb].
      * split; [discriminate|]. destruct (googleVision w); [discriminate|].
        intros _. split; [reflexivity|]. left. split; [now apply JsFacts.eqb_eq|reflexivity].
      * destruct (Js.eqb p (str "tesseract")) eqn:Et; cbn [orb negb andb].
        -- split; [discriminate|]. destruct (tesseract w); [discriminate|].
           intros _. split; [reflexivity|]. right. split; [now apply JsFacts.eqb_eq|reflexivity].
        -- split; [eauto|discriminate].
Qed.

End UploadFacts.

(** ** The choice of the grader *)
Module GraderFacts.
Import ExtractQaPairs GradingHeuristic GradingFacts Grading.
Local Open Scope R_scope.









End GraderFacts.
